(** * wordgenerator.py: a segment-level Markov chain word generator

    A shallow embedding of [WordGenerator] (src/wordgenerator.py) and the
    properties of its segmentation, chain building, sampling and
    persistence.

    Modelling conventions.
    - A Python [str] is a list of characters; characters are the code
      points below 256.
    - A Python [dict] is an association list in insertion order: the
      weighted choice walks the entries in that order.
    - A Python [set] object lives in a store of objects and is referred
      to by its location: [seed] mutates the set it is given.
    - Exceptions are values of [error]; a method is a state transformer
      that returns an outcome together with the state it leaves behind. *)

From Stdlib Require Import ZArith QArith Lia Ascii String.
From stdpp Require Import base option list gmap strings pretty.

Local Open Scope Z_scope.
Local Open Scope nat_scope.

(** ** Strings *)

Definition str := list ascii.

Definition marker : ascii := "~"%char.

(** [WordGenerator.MARKER = "~"] *)
Definition MARKER : str := [marker].

(** [s.startswith(prefix)] *)
Fixpoint startswith (s prefix : str) {struct prefix} : bool :=
  match prefix with
  | [] => true
  | p :: prefix' =>
      match s with
      | c :: s' => if decide (c = p) then startswith s' prefix' else false
      | [] => false
      end
  end.

(** [s.endswith(suffix)] *)
Definition endswith (s suffix : str) : bool :=
  startswith (rev s) (rev suffix).

(** [s.lstrip(chars)]: drop the leading characters that occur in [chars]. *)
Fixpoint lstrip (keep : ascii → bool) (s : str) : str :=
  match s with
  | c :: s' => if keep c then s else lstrip keep s'
  | [] => []
  end.

Definition rstrip (keep : ascii → bool) (s : str) : str :=
  rev (lstrip keep (rev s)).

(** [s.strip(chars)] *)
Definition strip_chars (chars : str) (s : str) : str :=
  let keep c := negb (bool_decide (c ∈ chars)) in
  rstrip keep (lstrip keep s).

(** The characters [str.isspace] accepts below code point 256:
    tab to carriage return, the four separators 28 to 31, the space, and
    the Latin-1 next-line and no-break space. *)
Definition isspace (c : ascii) : bool :=
  let n := nat_of_ascii c in
  ((9 <=? n) && (n <=? 13)) || ((28 <=? n) && (n <=? 32))
  || (n =? 133) || (n =? 160).

(** [s.strip()] *)
Definition strip (s : str) : str :=
  let keep c := negb (isspace c) in
  rstrip keep (lstrip keep s).

(** [c.lower()] below code point 256: [A-Z] and the Latin-1 capitals
    (192 to 222 except the multiplication sign 215) move up by 32. *)
Definition lower_char (c : ascii) : ascii :=
  let n := nat_of_ascii c in
  if ((65 <=? n) && (n <=? 90))
     || ((192 <=? n) && (n <=? 222) && negb (n =? 215))
  then ascii_of_nat (n + 32) else c.

(** [s.lower()] *)
Definition lower (s : str) : str := map lower_char s.

(** ** The segmentation pattern

    [seed] compiles
    ["([%]+)([^%]+)(?=([%]+))".replace("%", "".join(self.vowels))]:
    a run of vowels, a run of non-vowels, and a look-ahead at the next
    run of vowels.  The bracketed class is read literally, which is what
    [re] does unless a vowel is one of the characters it treats specially
    inside brackets. *)

Definition class_special (c : ascii) : bool :=
  bool_decide (c ∈ [ "\"%char; "]"%char; "["%char; "^"%char; "-"%char ]).

Definition class_literal (vowels : gset ascii) : Prop :=
  ∀ c, c ∈ vowels → class_special c = false.

Record pattern := Pattern { vowel_class : gset ascii }.

Definition re_compile (vowels : gset ascii) : pattern := Pattern vowels.

Definition is_vowel (p : pattern) (c : ascii) : bool :=
  bool_decide (c ∈ vowel_class p).

Definition non_vowel (p : pattern) (c : ascii) : bool := negb (is_vowel p c).

(** [X+] for a character class [X], greedy: take one character of the
    class, try to take more, and only when everything after the longer
    match fails continue from the shorter one.  [k] is the rest of the
    pattern; it receives the text matched and the text left. *)
Fixpoint plus_greedy {A} (class : ascii → bool) (s : str)
    (k : str → str → option A) : option A :=
  match s with
  | c :: s' =>
      if class c then
        match plus_greedy class s' (λ m r, k (c :: m) r) with
        | Some a => Some a
        | None => k [c] s'
        end
      else None
  | [] => None
  end.

Definition groups := (str * str * str)%type.

(** A match of the whole pattern at the head of [s]: the three groups and
    the text after the match.  The look-ahead consumes nothing, so the
    match ends where the third group begins. *)
Definition match_here (p : pattern) (s : str) : option (groups * str) :=
  plus_greedy (is_vowel p) s (λ g1 r1,
    plus_greedy (non_vowel p) r1 (λ g2 r2,
      plus_greedy (is_vowel p) r2 (λ g3 _, Some ((g1, g2, g3), r2)))).

(** [regex.findall(word)]: scan from the left; after a match the scan
    resumes where the match ended, otherwise one character further. *)
Fixpoint findall_from (fuel : nat) (p : pattern) (s : str) : list groups :=
  match fuel with
  | 0 => []
  | S fuel' =>
      match match_here p s with
      | Some (g, rest) => g :: findall_from fuel' p rest
      | None =>
          match s with
          | [] => []
          | _ :: s' => findall_from fuel' p s'
          end
      end
  end.

Definition findall (p : pattern) (s : str) : list groups :=
  findall_from (S (length s)) p s.

(** A [(key, value)] pair of the chain: the leading vowels, and the pair
    of the middle run and the next vowels. *)
Definition segment := (str * (str * str))%type.

(** [split_word]: pad the word with the marker on both sides and yield
    [key, tuple(value)] for every match. *)
Definition split_word (p : pattern) (word : str) : list segment :=
  let word := MARKER ++ word in
  let word := word ++ MARKER in
  map (λ '(key, g2, g3), (key, (g2, g3))) (findall p word).

Definition of_string (s : string) : str := list_ascii_of_string s.

(** The pattern [seed] compiles for the English vowels. *)
Definition english : gset ascii :=
  {[ "a"%char; "e"%char; "i"%char; "o"%char; "u"%char ]}.
Definition english_pattern : pattern := re_compile ({[ marker ]} ∪ english).

(** ** Python values

    The attributes of a generator hold whatever was last assigned to
    them: counters while seeding, plain dictionaries or lists afterwards,
    and after [load] whatever the document contained.  [value] is the
    universe of these objects. *)

Inductive atom :=
| ANone
| ABool (b : bool)
| AInt (z : Z)
| AStr (s : str).

Local Unset Elimination Schemes.

(** Hashable values: what can be a dictionary key. *)
Inductive key :=
| KAtom (a : atom)
| KTuple (ks : list key).

(** [dict], [collections.Counter] and
    [collections.defaultdict(collections.Counter)] differ in what a
    missing key does. *)
Inductive dict_kind := PlainDict | CounterDict | DefaultDict.

Inductive value :=
| VAtom (a : atom)
| VList (vs : list value)
| VTuple (vs : list value)
| VDict (kind : dict_kind) (entries : list (key * value)).

Abbreviation VNone := (VAtom ANone).
Abbreviation VBool b := (VAtom (ABool b)).
Abbreviation VInt z := (VAtom (AInt z)).
Abbreviation VStr s := (VAtom (AStr s)).
Abbreviation KStr s := (KAtom (AStr s)).

(** A parsed JSON document.  Numbers are integers. *)
Inductive json :=
| JAtom (a : atom)
| JArr (items : list json)
| JObj (members : list (str * json)).

Local Set Elimination Schemes.

Inductive error :=
| AttributeError
| EmptyDictionaryError
| IndexError
| KeyError
| OSError
| TypeError
| ValueError.

(** What a piece of code does: it returns, it raises, or it is still
    running when the fuel given to its loops is spent. *)
Inductive outcome (A : Type) :=
| Return (a : A)
| Raise (e : error)
| OutOfFuel.
Arguments Return {A} a.
Arguments Raise {A} e.
Arguments OutOfFuel {A}.

Global Instance outcome_ret : MRet outcome := λ A a, Return a.
Global Instance outcome_bind : MBind outcome := λ A B k m,
  match m with
  | Return a => k a
  | Raise e => Raise e
  | OutOfFuel => OutOfFuel
  end.

(** [bool(v)] *)
Definition truthy (v : value) : bool :=
  match v with
  | VAtom ANone => false
  | VAtom (ABool b) => b
  | VAtom (AInt z) => negb (z =? 0)%Z
  | VAtom (AStr s) => negb (bool_decide (s = []))
  | VList vs | VTuple vs => negb (bool_decide (vs = []))
  | VDict _ entries => negb (bool_decide (entries = []))
  end.

(** [a == b] on atoms: [True] and [False] are the integers 1 and 0. *)
Definition atom_eqb (a b : atom) : bool :=
  match a, b with
  | ANone, ANone => true
  | ABool x, ABool y => bool_decide (x = y)
  | ABool x, AInt y | AInt y, ABool x => (Z.b2z x =? y)%Z
  | AInt x, AInt y => (x =? y)%Z
  | AStr x, AStr y => bool_decide (x = y)
  | _, _ => false
  end.

(** [a == b] on keys; tuples are compared element by element. *)
Fixpoint key_eqb (a b : key) : bool :=
  match a, b with
  | KAtom x, KAtom y => atom_eqb x y
  | KTuple xs, KTuple ys =>
      (fix all (xs ys : list key) : bool :=
         match xs, ys with
         | [], [] => true
         | x :: xs', y :: ys' => key_eqb x y && all xs' ys'
         | _, _ => false
         end) xs ys
  | _, _ => false
  end.

Fixpoint key_value (k : key) : value :=
  match k with
  | KAtom a => VAtom a
  | KTuple ks => VTuple (map key_value ks)
  end.

(** [hash(v)]: lists and dictionaries are unhashable. *)
Fixpoint hash_key (v : value) : outcome key :=
  match v with
  | VAtom a => Return (KAtom a)
  | VTuple vs => ks ← mapM hash_key vs; Return (KTuple ks)
  | VList _ | VDict _ _ => Raise TypeError
  end.

(** The entry stored under [k], if any. *)
Fixpoint dict_lookup (k : key) (entries : list (key * value)) : option value :=
  match entries with
  | [] => None
  | (k', v) :: entries' =>
      if key_eqb k' k then Some v else dict_lookup k entries'
  end.

(** [d[k] = v] on the entries: an existing key keeps its place (and the
    key object first inserted), a new key goes last. *)
Fixpoint dict_store (k : key) (v : value) (entries : list (key * value))
    : list (key * value) :=
  match entries with
  | [] => [(k, v)]
  | (k', v') :: entries' =>
      if key_eqb k' k then (k', v) :: entries'
      else (k', v') :: dict_store k v entries'
  end.

(** An index into a sequence of length [n]: negative indices count from
    the end. *)
Definition sequence_index (n : nat) (i : Z) : outcome nat :=
  let i := if (i <? 0)%Z then (i + Z.of_nat n)%Z else i in
  if (0 <=? i)%Z && (i <? Z.of_nat n)%Z then Return (Z.to_nat i)
  else Raise IndexError.

Definition as_index (index : value) : outcome Z :=
  match index with
  | VAtom (AInt z) => Return z
  | VAtom (ABool b) => Return (Z.b2z b)
  | _ => Raise TypeError
  end.

(** [container[index]].  The container is returned as well: reading a
    missing key of a [defaultdict] inserts a fresh [Counter] under it. *)
Definition subscript (container index : value) : outcome (value * value) :=
  match container with
  | VDict kind entries =>
      k ← hash_key index;
      match dict_lookup k entries with
      | Some v => Return (v, container)
      | None =>
          match kind with
          | PlainDict => Raise KeyError
          | CounterDict => Return (VInt 0, container)
          | DefaultDict =>
              Return (VDict CounterDict [],
                      VDict DefaultDict (entries ++ [(k, VDict CounterDict [])]))
          end
      end
  | VList vs | VTuple vs =>
      i ← as_index index;
      n ← sequence_index (length vs) i;
      match vs !! n with
      | Some v => Return (v, container)
      | None => Raise IndexError
      end
  | VAtom (AStr s) =>
      i ← as_index index;
      n ← sequence_index (length s) i;
      match s !! n with
      | Some c => Return (VStr [c], container)
      | None => Raise IndexError
      end
  | VAtom _ => Raise TypeError
  end.

(** [container[index] = v] *)
Definition store_item (container index v : value) : outcome value :=
  match container with
  | VDict kind entries =>
      k ← hash_key index;
      Return (VDict kind (dict_store k v entries))
  | VList vs =>
      i ← as_index index;
      n ← sequence_index (length vs) i;
      Return (VList (<[n := v]> vs))
  | VTuple _ | VAtom _ => Raise TypeError
  end.

(** [n + v] for an integer [n]. *)
Definition int_add (n : Z) (v : value) : outcome Z :=
  match v with
  | VAtom (AInt z) => Return (n + z)%Z
  | VAtom (ABool b) => Return (n + Z.b2z b)%Z
  | _ => Raise TypeError
  end.

(** [v += 1] *)
Definition add_one (v : value) : outcome value :=
  match v with
  | VAtom (AInt z) => Return (VInt (z + 1))
  | VAtom (ABool b) => Return (VInt (Z.b2z b + 1))
  | VDict CounterDict _ => Raise AttributeError
  | _ => Raise TypeError
  end.

(** [v.items()], [v.keys()], [v.values()]: only dictionaries have them. *)
Definition items (v : value) : outcome (list (key * value)) :=
  match v with
  | VDict _ entries => Return entries
  | _ => Raise AttributeError
  end.

Definition keys (v : value) : outcome (list value) :=
  entries ← items v; Return (map (λ e, key_value e.1) entries).

Definition values (v : value) : outcome (list value) :=
  entries ← items v; Return (map snd entries).

(** [iter(v)]: the elements a [for] loop or an unpacking sees. *)
Definition iterate (v : value) : outcome (list value) :=
  match v with
  | VList vs | VTuple vs => Return vs
  | VAtom (AStr s) => Return (map (λ c, VStr [c]) s)
  | VDict _ entries => Return (map (λ e, key_value e.1) entries)
  | VAtom _ => Raise TypeError
  end.

(** [a, b = v] *)
Definition unpack2 (v : value) : outcome (value * value) :=
  vs ← iterate v;
  match vs with
  | [a; b] => Return (a, b)
  | _ => Raise ValueError
  end.

(** [len(v)] *)
Definition len (v : value) : outcome nat :=
  match v with
  | VList vs | VTuple vs => Return (length vs)
  | VAtom (AStr s) => Return (length s)
  | VDict _ entries => Return (length entries)
  | VAtom _ => Raise TypeError
  end.

(** [sum(vs)], the running total starting from [n]. *)
Fixpoint sum_from (n : Z) (vs : list value) : outcome Z :=
  match vs with
  | [] => Return n
  | v :: vs' => n' ← int_add n v; sum_from n' vs'
  end.

Definition sum_values (vs : list value) : outcome Z := sum_from 0 vs.

(** [{k: v for ...}]: the entries are stored one after the other. *)
Definition dict_comprehension (pairs : list (key * value))
    : list (key * value) :=
  fold_left (λ entries e, dict_store e.1 e.2 entries) pairs [].

(** A dictionary filled from a sequence of two-element sequences. *)
Fixpoint dict_of_sequence (vs : list value) (entries : list (key * value))
    : outcome (list (key * value)) :=
  match vs with
  | [] => Return entries
  | v :: vs' =>
      '(kv, x) ← unpack2 v;
      k ← hash_key kv;
      dict_of_sequence vs' (dict_store k x entries)
  end.

(** [dict(v)]: a copy of a dictionary, or the dictionary of a sequence of
    pairs. *)
Definition to_dict (v : value) : outcome value :=
  match v with
  | VDict _ entries => Return (VDict PlainDict entries)
  | _ =>
      vs ← iterate v;
      entries ← dict_of_sequence vs [];
      Return (VDict PlainDict entries)
  end.

(** [list(v.keys())] *)
Definition list_of_keys (v : value) : outcome value :=
  ks ← keys v; Return (VList ks).

(** [word += v]: only a string can be appended to a string. *)
Definition as_str (v : value) : outcome str :=
  match v with
  | VAtom (AStr s) => Return s
  | _ => Raise TypeError
  end.

(** ** JSON

    [json.dump] writes tuples as arrays and turns the keys of a
    dictionary into strings; a tuple cannot be a key.  [json.load] gives
    lists and plain dictionaries.  The text in between is the [json]
    module's business: a file is modelled by the document it holds. *)

Definition json_key (k : key) : outcome str :=
  match k with
  | KAtom (AStr s) => Return s
  | KAtom (AInt z) => Return (of_string (pretty z))
  | KAtom (ABool true) => Return (of_string "true")
  | KAtom (ABool false) => Return (of_string "false")
  | KAtom ANone => Return (of_string "null")
  | KTuple _ => Raise TypeError
  end.

Fixpoint to_json (v : value) : outcome json :=
  match v with
  | VAtom a => Return (JAtom a)
  | VList vs | VTuple vs => js ← mapM to_json vs; Return (JArr js)
  | VDict _ entries =>
      ms ← mapM (λ e : key * value,
                   k ← json_key e.1; j ← to_json e.2; Return (k, j)) entries;
      Return (JObj ms)
  end.

Fixpoint of_json (j : json) : value :=
  match j with
  | JAtom a => VAtom a
  | JArr js => VList (map of_json js)
  | JObj ms =>
      VDict PlainDict
        (dict_comprehension
           (map (λ m : str * json, (KStr m.1, of_json m.2)) ms))
  end.

(** What a file handed to [load] contains. *)
Inductive file_content :=
| NotJson
| Json (j : json).

(** [json.load(file)] *)
Definition json_load (file : file_content) : outcome value :=
  match file with
  | NotJson => Raise ValueError
  | Json j => Return (of_json j)
  end.
(** ** The state of a run

    A generator instance holds its attributes; an attribute is absent
    until a method assigns it.  The vowel sets are objects shared between
    whoever holds a reference to them, and the class attribute
    [ENGLISH_VOWELS] is one of them. *)

Definition loc := nat.

Record generator := Generator {
  weighted : value;              (* self.weighted *)
  vowels : option loc;           (* self.vowels *)
  regex : option pattern;        (* self.regex *)
  components : option value;     (* self.components *)
  starts : option value          (* self.starts *)
}.

(** What the [random] module returns on one call: the number if the call
    is [uniform], the integer below [n] (taken modulo [n]) if the call
    picks an index. *)
Record draw := Draw {
  uniform_result : Q;
  randbelow_result : nat
}.

Record state := State {
  self : generator;                  (* the instance the method runs on *)
  sets : gmap loc (gset ascii);      (* the set objects *)
  files : gmap str (list str);       (* the text files, as their lines *)
  tape : nat → draw;                 (* the answers of the random module *)
  drawn : nat                        (* how many it has given so far *)
}.

(** The object the class attribute [ENGLISH_VOWELS] refers to, as the
    class body creates it. *)
Definition ENGLISH_VOWELS : loc := 0.

Definition initial_sets : gmap loc (gset ascii) := {[ ENGLISH_VOWELS := english ]}.

Definition M (A : Type) : Type := state → outcome A * state.

Global Instance M_ret : MRet M := λ A a st, (Return a, st).
Global Instance M_bind : MBind M := λ A B k m st,
  match m st with
  | (Return a, st') => k a st'
  | (Raise e, st') => (Raise e, st')
  | (OutOfFuel, st') => (OutOfFuel, st')
  end.

Definition lift {A} (o : outcome A) : M A := λ st, (o, st).
Definition raise {A} (e : error) : M A := lift (Raise e).
Definition out_of_fuel {A} : M A := lift OutOfFuel.

Global Instance error_eq_dec : EqDecision error.
Proof. solve_decision. Defined.

(** [try: body except e: handler] *)
Definition try_except {A} (body : M A) (e : error) (handler : M A) : M A :=
  λ st,
    match body st with
    | (Raise e', st') =>
        if decide (e' = e) then handler st' else (Raise e', st')
    | r => r
    end.

(** [self.name]: reading an attribute that was never assigned raises. *)
Definition attribute {A} (name : generator → option A) : M A :=
  λ st,
    match name (self st) with
    | Some a => (Return a, st)
    | None => (Raise AttributeError, st)
    end.

Definition get_weighted : M value := λ st, (Return (weighted (self st)), st).

Definition update_self (f : generator → generator) : M unit :=
  λ st, (Return tt,
         State (f (self st)) (sets st) (files st) (tape st) (drawn st)).

Definition set_weighted (v : value) : M unit :=
  update_self (λ g, Generator v (vowels g) (regex g) (components g) (starts g)).
Definition set_vowels (l : loc) : M unit :=
  update_self (λ g, Generator (weighted g) (Some l) (regex g) (components g) (starts g)).
Definition set_regex (p : pattern) : M unit :=
  update_self (λ g, Generator (weighted g) (vowels g) (Some p) (components g) (starts g)).
Definition set_components (v : value) : M unit :=
  update_self (λ g, Generator (weighted g) (vowels g) (regex g) (Some v) (starts g)).
Definition set_starts (v : value) : M unit :=
  update_self (λ g, Generator (weighted g) (vowels g) (regex g) (components g) (Some v)).

(** The contents of a set object. *)
Definition read_set (l : loc) : M (gset ascii) :=
  λ st, (Return (sets st !!! l), st).

(** [s.add(c)] on the set object at [l]. *)
Definition set_add (l : loc) (c : ascii) : M unit :=
  λ st, (Return tt,
         State (self st) (<[l := {[ c ]} ∪ (sets st !!! l)]> (sets st))
               (files st) (tape st) (drawn st)).

(** One call to the random module. *)
Definition next_draw : M draw :=
  λ st, (Return (tape st (drawn st)),
         State (self st) (sets st) (files st) (tape st) (S (drawn st))).

(** [random.uniform(0, max)] *)
Definition uniform (max : Z) : M Q :=
  d ← next_draw; mret (uniform_result d).

(** [random.choice(seq)]: an empty sequence raises before anything is
    drawn; otherwise the element at a random index is returned.  (Were
    [seq] a [defaultdict], the lookup would also insert the index; the
    chain holds no such object once it has entries.) *)
Definition choice (seq : value) : M value :=
  n ← lift (len seq);
  if decide (n = 0) then raise IndexError
  else
    d ← next_draw;
    '(v, _) ← lift (subscript seq (VInt (Z.of_nat (randbelow_result d mod n))));
    mret v.

(** ** Seeding *)

(** What can be passed as [dictionary] or [language]: a file name, an
    open text file, or a list of words. *)
Inductive source :=
| Path (name : str)
| File (lines : list str)
| Words (words : list str).

(** [bool(x)] for an argument that may be [None]: a file object is always
    true, a string or a list when it is not empty. *)
Definition source_truthy (x : option source) : bool :=
  match x with
  | None => false
  | Some (Path name) => negb (bool_decide (name = []))
  | Some (File _) => true
  | Some (Words words) => negb (bool_decide (words = []))
  end.

(** [iter(x)]: a string iterates over its characters, [None] is not
    iterable. *)
Definition source_items (x : option source) : outcome (list str) :=
  match x with
  | Some (Path name) => Return (map (λ c, [c]) name)
  | Some (File lines) => Return lines
  | Some (Words words) => Return words
  | None => Raise TypeError
  end.

(** [open(name, "r")]: only a file name can be opened. *)
Definition open (name : option source) : M (list str) :=
  λ st,
    match name with
    | Some (Path p) =>
        match files st !! p with
        | Some lines => (Return lines, st)
        | None => (Raise OSError, st)
        end
    | _ => (Raise TypeError, st)
    end.

(** [(item.strip().lower() for item in language if item)] *)
Definition normalised (items : list str) : list str :=
  map (λ item, lower (strip item)) (filter (λ item, item ≠ []) items).

Fixpoint for_each {A} (body : A → M unit) (xs : list A) : M unit :=
  match xs with
  | [] => mret tt
  | x :: xs' => body x;; for_each body xs'
  end.

(** The tuple [(middle, next)]. *)
Definition pair_value (pair : str * str) : value :=
  VTuple [VStr pair.1; VStr pair.2].

(** [self.starts[key] += 1] *)
Definition count_start (key : str) : M unit :=
  s ← attribute starts;
  '(n, s) ← lift (subscript s (VStr key));
  set_starts s;;
  n ← lift (add_one n);
  s ← lift (store_item s (VStr key) n);
  set_starts s.

(** [self.components[key][value] += 1] *)
Definition count_component (key : str) (value : str * str) : M unit :=
  c ← attribute components;
  '(inner, c) ← lift (subscript c (VStr key));
  set_components c;;
  '(n, inner) ← lift (subscript inner (pair_value value));
  c ← lift (store_item c (VStr key) inner);
  set_components c;;
  n ← lift (add_one n);
  inner ← lift (store_item inner (pair_value value) n);
  c ← lift (store_item c (VStr key) inner);
  set_components c.

(** The body of the seeding loop. *)
Definition count_segment (s : segment) : M unit :=
  let '(key, value) := s in
  (if startswith key MARKER then count_start key else mret tt);;
  count_component key value.

(** The end of seeding: the counters become plain dictionaries when the
    generator is weighted, lists of their keys when it is not. *)
Definition freeze : M unit :=
  w ← get_weighted;
  if truthy w then
    c ← attribute components;
    entries ← lift (items c);
    frozen ← lift (mapM (λ e : key * value,
                           d ← to_dict e.2; Return (e.1, d)) entries);
    set_components (VDict PlainDict (dict_comprehension frozen));;
    s ← attribute starts;
    d ← lift (to_dict s);
    set_starts d
  else
    c ← attribute components;
    entries ← lift (items c);
    frozen ← lift (mapM (λ e : key * value,
                           l ← list_of_keys e.2; Return (e.1, l)) entries);
    set_components (VDict PlainDict (dict_comprehension frozen));;
    s ← attribute starts;
    l ← lift (list_of_keys s);
    set_starts l.

(** The body of [seed]; [recur language] stands for the nested call
    [self.seed(language=language)]. *)
Definition seed_with (recur : option source → M unit)
    (dictionary language : option source) (vowels : option loc)
    (append : bool) : M unit :=
  let vowels := default ENGLISH_VOWELS vowels in
  set_vowels vowels;;
  set_add vowels marker;;
  class ← read_set vowels;
  set_regex (re_compile class);;
  (if append then mret tt
   else
     set_components (VDict DefaultDict []);;
     set_starts (VDict CounterDict []));;
  if source_truthy dictionary && negb (source_truthy language) then
    try_except (file ← open dictionary; recur (Some (File file)))
      TypeError (recur dictionary)
  else if source_truthy language && negb (source_truthy dictionary) then
    items ← lift (source_items language);
    p ← attribute regex;
    for_each count_segment (flat_map (split_word p) (normalised items));;
    freeze
  else raise ValueError.

(** The nested call passes no dictionary, so it never reaches a nested
    call of its own. *)
Definition seed_nested (language : option source) : M unit :=
  seed_with (λ _, out_of_fuel) None language None false.

(** [seed(dictionary, language, vowels, append)]; an omitted [vowels] is
    [None] here and stands for the default, [ENGLISH_VOWELS]. *)
Definition seed : option source → option source → option loc → bool → M unit :=
  seed_with seed_nested.

(** [WordGenerator(dictionary, language, weighted, vowels)]: a new
    instance has no attribute but those [__init__] assigns.  ([self.marker]
    is assigned too and never read.) *)
Definition init (dictionary language : option source) (weighted : value)
    (vowels : option loc) : M unit :=
  update_self (λ _, Generator weighted None None None None);;
  if source_truthy dictionary || source_truthy language then
    seed dictionary language (Some (default ENGLISH_VOWELS vowels)) false
  else mret tt.

(** ** Sampling *)

(** The loop of the weighted choice: [current] accumulates the counts and
    the first key whose running sum exceeds [pick] is returned; falling
    off the end returns [None]. *)
Fixpoint weighted_scan (pick : Q) (current : Z) (entries : list (key * value))
    : outcome value :=
  match entries with
  | [] => Return VNone
  | (k, v) :: entries' =>
      current ← int_add current v;
      if negb (Qle_bool (inject_Z current) pick) then Return (key_value k)
      else weighted_scan pick current entries'
  end.

Definition _weighted_random_choice (choices : value) : M value :=
  w ← get_weighted;
  if truthy w then
    counts ← lift (values choices);
    max ← lift (sum_values counts);
    pick ← uniform max;
    entries ← lift (items choices);
    lift (weighted_scan pick 0 entries)
  else choice choices.

(** The loop of [_generate_word]. *)
Fixpoint walk (fuel : nat) (word : str) (current : value) : M str :=
  match fuel with
  | 0 => out_of_fuel
  | S fuel' =>
      segment ← lift (as_str current);
      let word := word ++ segment in
      if endswith segment MARKER && negb (bool_decide (word = MARKER))
      then mret word
      else
        c ← attribute components;
        '(choices, c) ← lift (subscript c current);
        set_components c;;
        picked ← _weighted_random_choice choices;
        '(next, current) ← lift (unpack2 picked);
        next ← lift (as_str next);
        walk fuel' (word ++ next) current
  end.

Definition _generate_word (fuel : nat) : M str :=
  c ← attribute components;
  if negb (truthy c) then raise EmptyDictionaryError
  else
    s ← attribute starts;
    current ← _weighted_random_choice s;
    word ← walk fuel [] current;
    mret (strip_chars MARKER word).

(** The [limit] argument: [None], a maximum, or a pair. *)
Inductive limit :=
| NoLimit
| Maximum (maximum : Z)
| Range (minimum maximum : Z).

(** [try: minimum, maximum = limit except TypeError: ...] *)
Definition unpack_limit (l : limit) : Z * option Z :=
  match l with
  | Range minimum maximum => (minimum, Some maximum)
  | Maximum maximum => (0%Z, Some maximum)
  | NoLimit => (0%Z, None)
  end.

(** [minimum < len(item) < maximum]: the second comparison is made only
    when the first holds, and comparing with [None] raises. *)
Definition within (minimum : Z) (maximum : option Z) (item : str)
    : outcome bool :=
  if (minimum <? Z.of_nat (length item))%Z then
    match maximum with
    | Some maximum => Return (Z.of_nat (length item) <? maximum)%Z
    | None => Raise TypeError
    end
  else Return false.

(** One [next] on [(item for item in self if minimum < len(item) < maximum)]:
    words are generated until one passes the filter. *)
Fixpoint next_item (tries fuel : nat) (minimum : Z) (maximum : option Z)
    : M str :=
  match tries with
  | 0 => out_of_fuel
  | S tries' =>
      item ← _generate_word fuel;
      ok ← lift (within minimum maximum item);
      if ok : bool then mret item else next_item tries' fuel minimum maximum
  end.

(** The first [n] items of the iterator [generate(limit, n)] returns. *)
Fixpoint islice (n tries fuel : nat) (minimum : Z) (maximum : option Z)
    : M (list str) :=
  match n with
  | 0 => mret []
  | S n' =>
      item ← next_item tries fuel minimum maximum;
      rest ← islice n' tries fuel minimum maximum;
      mret (item :: rest)
  end.

Definition generate (l : limit) (n tries fuel : nat) : M (list str) :=
  let '(minimum, maximum) := unpack_limit l in
  islice n tries fuel minimum maximum.

(** [generate_word(limit)] is [next(self.generate(limit))]. *)
Definition generate_word (l : limit) (tries fuel : nat) : M str :=
  let '(minimum, maximum) := unpack_limit l in
  next_item tries fuel minimum maximum.

(** ** Persistence *)

(** [save]: the document handed to [json.dump]. *)
Definition save : M json :=
  c ← attribute components;
  entries ← lift (items c);
  listed ← lift (mapM (λ e : key * value,
                         inner ← items e.2;
                         Return (e.1, VList (map (λ i : key * value,
                                                    VTuple [key_value i.1; i.2])
                                                 inner)))
                      entries);
  s ← attribute starts;
  w ← get_weighted;
  lift (to_json (VDict PlainDict
                   [ (KStr (of_string "weighted"), w);
                     (KStr (of_string "starts"), s);
                     (KStr (of_string "components"),
                      VDict PlainDict (dict_comprehension listed)) ])).

(** [{tuple(value): count for value, count in values}] *)
Fixpoint decode_values (elements : list value) (entries : list (key * value))
    : outcome (list (key * value)) :=
  match elements with
  | [] => Return entries
  | e :: elements' =>
      '(v, count) ← unpack2 e;
      vs ← iterate v;
      k ← hash_key (VTuple vs);
      decode_values elements' (dict_store k count entries)
  end.

(** The dictionary comprehension of [load], on the parsed document. *)
Definition decode_components (serialised : value) : outcome value :=
  '(c, _) ← subscript serialised (VStr (of_string "components"));
  entries ← items c;
  decoded ← mapM (λ e : key * value,
                    elements ← iterate e.2;
                    inner ← decode_values elements [];
                    Return (e.1, VDict PlainDict inner))
                 entries;
  Return (VDict PlainDict (dict_comprehension decoded)).

Definition load (file : file_content) : M unit :=
  serialised ← lift (json_load file);
  c ← lift (decode_components serialised);
  set_components c;;
  '(s, _) ← lift (subscript serialised (VStr (of_string "starts")));
  set_starts s;;
  '(w, _) ← lift (subscript serialised (VStr (of_string "weighted")));
  set_weighted w.
(** ** Vocabulary of the statements *)

(** The longest prefix of [s] in a class, and what follows it. *)
Fixpoint span (class : ascii → bool) (s : str) : str * str :=
  match s with
  | c :: s' =>
      if class c then let '(run, rest) := span class s' in (c :: run, rest)
      else ([], s)
  | [] => ([], [])
  end.

(** The match at the head of [s] without backtracking: the longest run of
    vowels, the longest run of non-vowels after it, and the longest run
    of vowels after that, none of them empty. *)
Definition match_runs (p : pattern) (s : str) : option (groups * str) :=
  let '(g1, r1) := span (is_vowel p) s in
  let '(g2, r2) := span (non_vowel p) r1 in
  let '(g3, _) := span (is_vowel p) r2 in
  match g1, g2, g3 with
  | _ :: _, _ :: _, _ :: _ => Some ((g1, g2, g3), r2)
  | _, _, _ => None
  end.

(** [leadingVowels + middle] over the segments, one after the other. *)
Definition leading_middle (segments : list segment) : str :=
  flat_map (λ '(key, (middle, _)), key ++ middle) segments.

(** The trailing vowels of the last segment. *)
Definition last_trailing (segments : list segment) : str :=
  match last segments with
  | Some (_, (_, trailing)) => trailing
  | None => []
  end.

(** A match as the pair [split_word] yields. *)
Definition to_segment : groups → segment := λ '(key, g2, g3), (key, (g2, g3)).


Definition starts_with_vowel (p : pattern) (s : str) : Prop :=
  ∃ c, head s = Some c ∧ is_vowel p c = true.
Definition ends_with_vowel (p : pattern) (s : str) : Prop :=
  ∃ c, last s = Some c ∧ is_vowel p c = true.
Definition all_vowels (p : pattern) (s : str) : Prop :=
  Forall (λ c, is_vowel p c = true) s.

Global Instance all_vowels_dec p s : Decision (all_vowels p s).
Proof. unfold all_vowels. apply Forall_dec. intros c. apply bool_eq_dec. Defined.


(** A collection of candidates with integer counts, as a dictionary
    holds it. *)
Definition counted (candidates : list (key * Z)) : list (key * value) :=
  map (λ '(k, c), (k, VInt c)) candidates.

(** The sum of the first [n] counts. *)
Definition running_sum (candidates : list (key * Z)) (n : nat) : Z :=
  foldr Z.add 0%Z (map snd (take n candidates)).

Definition total_weight (candidates : list (key * Z)) : Z :=
  running_sum candidates (length candidates).

(** The state after one more call to the random module. *)
Definition after_draw (st : state) : state :=
  State (self st) (sets st) (files st) (tape st) (S (drawn st)).

(** A call of one of the methods. *)
Inductive call :=
| CallInit (dictionary language : option source) (weighted : value)
    (vowels : option loc)
| CallSeed (dictionary language : option source) (vowels : option loc)
    (append : bool)
| CallGenerateWord (l : limit) (tries fuel : nat)
| CallGenerate (l : limit) (n tries fuel : nat)
| CallSave
| CallLoad (file : file_content).

Definition perform (c : call) : M unit :=
  match c with
  | CallInit dictionary language weighted vowels =>
      init dictionary language weighted vowels
  | CallSeed dictionary language vowels append =>
      seed dictionary language vowels append
  | CallGenerateWord l tries fuel => generate_word l tries fuel;; mret tt
  | CallGenerate l n tries fuel => generate l n tries fuel;; mret tt
  | CallSave => save;; mret tt
  | CallLoad file => load file
  end.

(** From [st] to [st'] the set objects changed at most by gaining the
    marker. *)
Definition only_marker_added (st st' : state) : Prop :=
  ∀ l, sets st' !!! l = sets st !!! l
       ∨ sets st' !!! l = {[ marker ]} ∪ sets st !!! l.

(** A piece of code that changes the set objects at most in that way,
    however it ends. *)
Definition adds_only_marker {A} (m : M A) : Prop :=
  ∀ st, only_marker_added st (m st).2.

(** A state to run examples in: a weighted generator just constructed,
    the class attribute as the class body made it, no files, and a random
    module that answers [d] to [uniform] and index [i] every time. *)
Definition constant_tape (d : Q) (i : nat) : nat → draw := λ _, Draw d i.

Definition new_generator (weighted : bool) : generator :=
  Generator (VBool weighted) None None None None.

Definition example_state (weighted : bool) (d : Q) (i : nat) : state :=
  State (new_generator weighted) initial_sets ∅ (constant_tape d i) 0.

(** *** The shape of a chain built from words without the marker *)

(** A middle run: not empty, no marker. *)
Definition good_middle (m : str) : Prop := m ≠ [] ∧ marker ∉ m.

(** A run of vowels that follows a middle run: inside the word, or at its
    end and then closed by the one marker. *)
Definition good_next (n : str) : Prop :=
  (n ≠ [] ∧ marker ∉ n) ∨ (∃ n', n = n' ++ MARKER ∧ marker ∉ n').

(** A run of vowels that begins a word: the marker, then vowels of the
    word. *)
Definition good_start (k : str) : Prop := ∃ r, k = marker :: r ∧ marker ∉ r.

Definition good_segment (s : segment) : Prop :=
  good_middle s.2.1 ∧ good_next s.2.2 ∧
  (startswith s.1 MARKER = true → good_start s.1).

Definition pair_key_ok (k : key) : Prop :=
  ∃ m n, k = KTuple [KStr m; KStr n] ∧ good_middle m ∧ good_next n.

Definition pair_ok (v : value) : Prop :=
  ∃ m n, v = VTuple [VStr m; VStr n] ∧ good_middle m ∧ good_next n.

(** The successors of a key: a dictionary from pairs to counts, or, in a
    generator that is not weighted, a list of pairs. *)
Definition successors_ok (w : bool) (v : value) : Prop :=
  match v with
  | VDict _ entries => Forall (λ e, pair_key_ok e.1) entries
  | VList vs => w = false ∧ Forall pair_ok vs
  | _ => False
  end.

Definition table_ok (w : bool) (c : value) : Prop :=
  match c with
  | VDict _ entries => Forall (λ e, successors_ok w e.2) entries
  | _ => False
  end.

Definition start_key_ok (k : key) : Prop := ∃ s, k = KStr s ∧ good_start s.
Definition start_ok (v : value) : Prop := ∃ s, v = VStr s ∧ good_start s.

Definition starts_ok (w : bool) (s : value) : Prop :=
  match s with
  | VDict _ entries => Forall (λ e, start_key_ok e.1) entries
  | VList vs => w = false ∧ Forall start_ok vs
  | _ => False
  end.

(** The attributes of a generator, where assigned, have that shape. *)
Definition chain_ok (g : generator) : Prop :=
  let w := truthy (weighted g) in
  match components g with Some c => table_ok w c | None => True end ∧
  match starts g with Some s => starts_ok w s | None => True end.

(** The words a call to [seed] may read: the lines of the file a name
    stands for and the characters of the name, the lines of an open file,
    the words of a list. *)
Definition words_of (st : state) (x : option source) : list str :=
  match x with
  | Some (Path p) => default [] (files st !! p) ++ map (λ c, [c]) p
  | Some (File lines) => lines
  | Some (Words words) => words
  | None => []
  end.

Definition marker_free (words : list str) : Prop :=
  Forall (λ w, marker ∉ w) words.

(** The state in which [seed] branches on its arguments: the vowel set
    holds the marker, the pattern is compiled from it, and the counters
    are new unless the call appends. *)
Definition seed_prepared (vowels : option loc) (append : bool) (st : state)
    : state :=
  let target := default ENGLISH_VOWELS vowels in
  let sets' := <[target := {[ marker ]} ∪ (sets st !!! target)]> (sets st) in
  State
    (Generator (weighted (self st)) (Some target)
       (Some (re_compile (sets' !!! target)))
       (if append then components (self st) else Some (VDict DefaultDict []))
       (if append then starts (self st) else Some (VDict CounterDict [])))
    sets' (files st) (tape st) (drawn st).

(** The branches of [seed]. *)
Definition seed_branches (recur : option source → M unit)
    (dictionary language : option source) : M unit :=
  if source_truthy dictionary && negb (source_truthy language) then
    try_except (file ← open dictionary; recur (Some (File file)))
      TypeError (recur dictionary)
  else if source_truthy language && negb (source_truthy dictionary) then
    items ← lift (source_items language);
    p ← attribute regex;
    for_each count_segment (flat_map (split_word p) (normalised items));;
    freeze
  else raise ValueError.

(** What a choice returns when it has nothing to return: [None] off the
    end of the weighted loop, or what a counter gives for a missing
    key.  Nothing can be done with it. *)
Definition useless (v : value) : Prop :=
  v = VNone ∨ v = VInt 0 ∨ v = VDict CounterDict [].

(** Keys that no integer index is equal to. *)
Definition non_numeric (k : key) : Prop :=
  match k with
  | KAtom (AInt _) | KAtom (ABool _) => False
  | _ => True
  end.

(** A collection to choose from, with keys satisfying [Pk] or elements
    satisfying [Pv]. *)
Definition collection_ok (w : bool) (Pk : key → Prop) (Pv : value → Prop)
    (choices : value) : Prop :=
  match choices with
  | VDict _ entries => Forall (λ e, Pk e.1) entries
  | VList vs => w = false ∧ Forall Pv vs
  | VAtom (AInt z) => z = 0%Z
  | _ => False
  end.

(** The loop of [_generate_word] is about to append [current] to
    [word]. *)
Definition walk_ready (word : str) (current : value) : Prop :=
  (word = [] ∧ (start_ok current ∨ useless current)) ∨
  (∃ body n, word = marker :: body ∧ body ≠ [] ∧ (marker ∉ body) ∧
             current = VStr n ∧ good_next n).

(** The member of a JSON object that [json.load] keeps for a name: the
    last one. *)
Definition last_member (name : str) (members : list (str * json))
    : option json :=
  fold_left (λ found m, if decide (m.1 = name) then Some m.2 else found)
    members None.

Definition json_field (name : string) (j : json) : option json :=
  match j with
  | JObj members => last_member (of_string name) members
  | _ => None
  end.

(** Documents and states for the examples. *)
Definition JStr (s : string) : json := JAtom (AStr (of_string s)).
Definition JInt (z : Z) : json := JAtom (AInt z).

(** [{"components": {}}] *)
Definition document_without_starts : json :=
  JObj [ (of_string "components", JObj []) ].

(** [{"weighted": false, "starts": {"~": 1},
      "components": {"~": [[["b", "~"], 1]]}}] *)
Definition document_with_counts_unweighted : json :=
  JObj [ (of_string "weighted", JAtom (ABool false));
         (of_string "starts", JObj [ (of_string "~", JInt 1) ]);
         (of_string "components",
          JObj [ (of_string "~",
                  JArr [ JArr [ JArr [ JStr "b"; JStr "~" ]; JInt 1 ] ]) ]) ].

(** A generator seeded from the words given, in the example state. *)
Definition example_seeded (weighted : bool) (words : list string) : state :=
  (init None (Some (Words (map of_string words))) (VBool weighted) None
     (example_state weighted 0 0)).2.

(** *** Invariants of the two tables

    [T w c] says what [self.components] may hold and [S w s] what
    [self.starts] may hold in a generator that is weighted or not as [w]
    says. *)
Section Invariant.
Variable T : bool → value → Prop.
Variable S : bool → value → Prop.

Definition holds (w : bool) (st : state) : Prop :=
  truthy (weighted (self st)) = w ∧
  match components (self st) with Some c => T w c | None => True end ∧
  match starts (self st) with Some s => S w s | None => True end.

(** The code keeps the invariant, however it ends. *)
Definition keeps (w : bool) {A} (m : M A) : Prop :=
  ∀ st, holds w st → holds w (m st).2.
End Invariant.

(** The code leaves the attributes of the generator alone. *)
Definition leaves_self {A} (m : M A) : Prop :=
  ∀ st, self (m st).2 = self st.

(** The chain has the shape of a chain built from words without the
    marker. *)
Definition chain_inv : bool → state → Prop := holds table_ok starts_ok.
Definition keeps_chain (w : bool) {A} (m : M A) : Prop :=
  keeps table_ok starts_ok w m.

(** The line of a text file that holds one word. *)
Definition line (word : string) : str := of_string word ++ ["010"%char].

(** Every set object holds only characters that a pattern reads
    literally. *)
Definition literal_sets (st : state) : Prop :=
  ∀ l, class_literal (sets st !!! l).

(** The states of a generator that was seeded, from words in which the
    marker does not occur, and then used: constructed with a dictionary
    or a language, seeded anew or, once seeded, appended to, and asked
    for words or saved in between. *)
Inductive seeded : state → Prop :=
| seeded_init st dictionary language weighted vowels :
    source_truthy dictionary || source_truthy language = true →
    marker_free (words_of st dictionary ++ words_of st language) →
    literal_sets st →
    seeded (init dictionary language weighted vowels st).2
| seeded_seed st dictionary language vowels append :
    marker_free (words_of st dictionary ++ words_of st language) →
    literal_sets st →
    (append = true → seeded st) →
    seeded (seed dictionary language vowels append st).2
| seeded_generate_word st l tries fuel :
    seeded st → seeded (generate_word l tries fuel st).2
| seeded_generate st l n tries fuel :
    seeded st → seeded (generate l n tries fuel st).2
| seeded_save st :
    seeded st → seeded (save st).2.

(** ** The model a seeding builds

    The transition table and the start table as typed association
    lists, built the way the counters of [seed] count, and the values a
    generator holds for them. *)

Section Assoc.
Context {K V : Type} `{EqDecision K}.

Fixpoint assoc_lookup (k : K) (l : list (K * V)) : option V :=
  match l with
  | [] => None
  | (k', v) :: l' => if decide (k' = k) then Some v else assoc_lookup k l'
  end.

(** An existing key keeps its place, a new key goes last. *)
Fixpoint assoc_store (k : K) (v : V) (l : list (K * V)) : list (K * V) :=
  match l with
  | [] => [(k, v)]
  | (k', v') :: l' =>
      if decide (k' = k) then (k', v) :: l'
      else (k', v') :: assoc_store k v l'
  end.
End Assoc.

(** An association list as the entries of a dictionary. *)
Definition entries_of {K V} (ek : K → key) (ev : V → value)
    (l : list (K * V)) : list (key * value) :=
  map (λ e : K * V, (ek e.1, ev e.2)) l.

(** [counter[k] += 1] *)
Definition bump {K} `{EqDecision K} (k : K) (l : list (K * Z)) : list (K * Z) :=
  assoc_store k (default 0%Z (assoc_lookup k l) + 1)%Z l.

Definition successors := list ((str * str) * Z).

Record model := Model {
  transitions : list (str * successors);
  start_counts : list (str * Z)
}.

(** What the body of the seeding loop does to the counts. *)
Definition count (m : model) (s : segment) : model :=
  Model
    (assoc_store s.1
       (bump s.2 (default [] (assoc_lookup s.1 (transitions m))))
       (transitions m))
    (if startswith s.1 MARKER then bump s.1 (start_counts m)
     else start_counts m).

Definition build (segments : list segment) : model :=
  fold_left count segments (Model [] []).

(** The segments of a corpus, as the seeding loop meets them. *)
Definition corpus_segments (p : pattern) (items : list str) : list segment :=
  flat_map (split_word p) (normalised items).

Definition pair_key_of (pair : str * str) : key :=
  KTuple [KStr pair.1; KStr pair.2].

Definition successors_value (kind : dict_kind) (succ : successors) : value :=
  VDict kind (entries_of pair_key_of (λ c : Z, VInt c) succ).

Definition transitions_value (outer inner : dict_kind)
    (t : list (str * successors)) : value :=
  VDict outer (entries_of (λ k : str, KStr k) (successors_value inner) t).

Definition starts_value (kind : dict_kind) (s : list (str * Z)) : value :=
  VDict kind (entries_of (λ k : str, KStr k) (λ c : Z, VInt c) s).

(** The lists an unweighted generator keeps of the same tables. *)
Definition successors_list (succ : successors) : value :=
  VList (map (λ i : (str * str) * Z, pair_value i.1) succ).

Definition transitions_lists (t : list (str * successors)) : value :=
  VDict PlainDict (entries_of (λ k : str, KStr k) successors_list t).

Definition starts_list (s : list (str * Z)) : value :=
  VList (map (λ e : str * Z, VStr e.1) s).

(** The state [st] with the two tables of the generator replaced. *)
Definition with_tables (c s : value) (st : state) : state :=
  State
    (Generator (weighted (self st)) (vowels (self st)) (regex (self st))
       (Some c) (Some s))
    (sets st) (files st) (tape st) (drawn st).

(** ... by the counters of a seeding under way, *)
Definition counting (m : model) : state → state :=
  with_tables (transitions_value DefaultDict CounterDict (transitions m))
              (starts_value CounterDict (start_counts m)).

(** ... by the dictionaries of a weighted generator, *)
Definition holding (m : model) : state → state :=
  with_tables (transitions_value PlainDict PlainDict (transitions m))
              (starts_value PlainDict (start_counts m)).

(** ... by the lists of an unweighted one. *)
Definition listing (m : model) : state → state :=
  with_tables (transitions_lists (transitions m))
              (starts_list (start_counts m)).

(** Each key once, at both levels. *)
Definition wf_model (m : model) : Prop :=
  NoDup (transitions m).*1 ∧
  Forall (λ e : str * successors, NoDup e.2.*1) (transitions m) ∧
  NoDup (start_counts m).*1.

(** The pairs and counts of a key, as [save] lists them. *)
Definition listed_successors (succ : successors) : value :=
  VList (map (λ i : (str * str) * Z, VTuple [pair_value i.1; VInt i.2]) succ).

Definition encoded_successors (succ : successors) : json :=
  JArr (map (λ i : (str * str) * Z,
               JArr [ JArr [ JAtom (AStr i.1.1); JAtom (AStr i.1.2) ];
                      JAtom (AInt i.2) ])
            succ).

(** The document [save] writes for a weighted model. *)
Definition encode (weighted : atom) (m : model) : json :=
  JObj
    [ (of_string "weighted", JAtom weighted);
      (of_string "starts",
       JObj (map (λ e : str * Z, (e.1, JAtom (AInt e.2))) (start_counts m)));
      (of_string "components",
       JObj (map (λ e : str * successors, (e.1, encoded_successors e.2))
                 (transitions m))) ].

(** A pair and its count as [json.load] gives them back: lists, not
    tuples. *)
Definition loaded_successors (succ : successors) : value :=
  VList (map (λ i : (str * str) * Z,
                VList [ VList [ VStr i.1.1; VStr i.1.2 ]; VInt i.2 ])
             succ).

(** The generator after a successful [load] of the model [m] with the
    flag [weighted]. *)
Definition loaded (weighted : atom) (m : model) (st : state) : state :=
  State
    (Generator (VAtom weighted) (vowels (self st)) (regex (self st))
       (Some (transitions_value PlainDict PlainDict (transitions m)))
       (Some (starts_value PlainDict (start_counts m))))
    (sets st) (files st) (tape st) (drawn st).
Example split_banana :
  split_word english_pattern (of_string "banana")
  = [ (of_string "~", (of_string "b", of_string "a"));
      (of_string "a", (of_string "n", of_string "a"));
      (of_string "a", (of_string "n", of_string "a~")) ].
Proof. vm_compute. reflexivity. Qed.

Example split_strength :
  split_word english_pattern (of_string "strength")
  = [ (of_string "~", (of_string "str", of_string "e"));
      (of_string "e", (of_string "ngth", of_string "~")) ].
Proof. vm_compute. reflexivity. Qed.
(** * Properties *)

(** ** Strings *)

Lemma lstrip_drop keep c s : keep c = false → lstrip keep (c :: s) = lstrip keep s.
Proof. intros H. simpl. by rewrite H. Qed.

Lemma lstrip_keep keep c s : keep c = true → lstrip keep (c :: s) = c :: s.
Proof. intros H. simpl. by rewrite H. Qed.

Lemma lstrip_all keep s : Forall (λ c, keep c = false) s → lstrip keep s = [].
Proof.
  induction 1 as [|c s Hc _ IH]; [done|]. by rewrite lstrip_drop.
Qed.

Lemma lstrip_app_drop keep s t :
  Forall (λ c, keep c = false) s → lstrip keep (s ++ t) = lstrip keep t.
Proof.
  induction 1 as [|c s Hc _ IH]; [done|]. simpl. by rewrite Hc.
Qed.

Lemma lstrip_Forall (P : ascii → Prop) keep s :
  Forall P s → Forall P (lstrip keep s).
Proof.
  induction 1 as [|c s Hc Hs IH]; simpl; [constructor|].
  destruct (keep c); [by constructor | done].
Qed.

Lemma rstrip_Forall (P : ascii → Prop) keep s :
  Forall P s → Forall P (rstrip keep s).
Proof.
  intros H. unfold rstrip. apply Forall_rev, lstrip_Forall, Forall_rev, H.
Qed.

Lemma marker_kept c :
  negb (bool_decide (c ∈ MARKER)) = negb (bool_decide (c = marker)).
Proof.
  f_equal. apply bool_decide_ext. unfold MARKER. rewrite list_elem_of_singleton.
  done.
Qed.

(** Stripping the markers off a padded word gives the word back when the
    word itself neither begins nor ends with the marker. *)
Lemma strip_padded (w : str) :
  marker ∉ w → strip_chars MARKER (MARKER ++ w ++ MARKER) = w.
Proof.
  intros Hw. unfold strip_chars, rstrip.
  pose (keep := λ c, negb (bool_decide (c ∈ MARKER))).
  assert (Hkeep : ∀ c, keep c = negb (bool_decide (c = marker)))
    by apply marker_kept.
  change (rev (lstrip keep (rev (lstrip keep (MARKER ++ w ++ MARKER)))) = w).
  clearbody keep.
  assert (Hm : keep marker = false).
  { rewrite Hkeep. by rewrite bool_decide_eq_true_2. }
  assert (Hk : ∀ c, c ∈ w → keep c = true).
  { intros c Hc. rewrite Hkeep.
    rewrite bool_decide_eq_false_2; [done|]. intros ->. done. }
  change (MARKER ++ w ++ MARKER) with (marker :: w ++ [marker]).
  rewrite lstrip_drop by done.
  destruct w as [|c w].
  - rewrite app_nil_l, lstrip_drop by done. done.
  - rewrite <- app_comm_cons, lstrip_keep by (apply Hk; left).
    rewrite app_comm_cons, rev_app_distr.
    change (rev [marker]) with [marker].
    rewrite <- app_comm_cons, app_nil_l, lstrip_drop by done.
    destruct (rev (c :: w)) as [|d r] eqn:Hr.
    + apply (f_equal (@rev ascii)) in Hr. rewrite rev_involutive in Hr. done.
    + rewrite lstrip_keep.
      * rewrite <- Hr. apply rev_involutive.
      * apply Hk. rewrite <- (rev_involutive (c :: w)), Hr.
        apply list_elem_of_In, in_rev. rewrite rev_involutive.
        left. done.
Qed.

(** ** The segmentation pattern *)

Lemma span_app class s run rest :
  span class s = (run, rest) → s = run ++ rest.
Proof.
  revert run rest. induction s as [|c s IH]; intros run rest; simpl.
  - by intros [= <- <-].
  - destruct (class c).
    + destruct (span class s) as [run' rest'] eqn:E. intros [= <- <-].
      simpl. f_equal. by apply IH.
    + by intros [= <- <-].
Qed.

Lemma span_run class s run rest :
  span class s = (run, rest) → Forall (λ c, class c = true) run.
Proof.
  revert run rest. induction s as [|c s IH]; intros run rest; simpl.
  - intros [= <- <-]. constructor.
  - destruct (class c) eqn:Hc.
    + destruct (span class s) as [run' rest'] eqn:E. intros [= <- <-].
      constructor; [done|]. by eapply IH.
    + intros [= <- <-]. constructor.
Qed.

Lemma span_rest class s run rest :
  span class s = (run, rest) →
  match rest with [] => True | c :: _ => class c = false end.
Proof.
  revert run rest. induction s as [|c s IH]; intros run rest; simpl.
  - by intros [= <- <-].
  - destruct (class c) eqn:Hc.
    + destruct (span class s) as [run' rest'] eqn:E. intros [= <- <-].
      by eapply IH.
    + by intros [= <- <-].
Qed.

Lemma span_all class s :
  Forall (λ c, class c = true) s → span class s = (s, []).
Proof.
  induction 1 as [|c s Hc _ IH]; simpl; [done|]. by rewrite Hc, IH.
Qed.

Lemma span_empty class s rest :
  span class s = ([], rest) → rest = s.
Proof. intros H. by apply span_app in H. Qed.

(** Backtracking never helps [X+] when what follows [X+] succeeds on
    every split. *)
Lemma plus_greedy_total {A} class s (k : str → str → option A) :
  (∀ m r, is_Some (k m r)) →
  plus_greedy class s k =
    match span class s with
    | ([], _) => None
    | (run, rest) => k run rest
    end.
Proof.
  revert k. induction s as [|c s IH]; intros k Hk; simpl; [done|].
  destruct (class c); [|done].
  rewrite IH by (intros; apply Hk).
  destruct (span class s) as [[|d run] rest] eqn:E.
  - by apply span_empty in E as ->.
  - destruct (Hk (c :: d :: run) rest) as [a ->]. done.
Qed.

(** Nor when what follows fails as soon as the text left begins with a
    character of the class. *)
Lemma plus_greedy_maximal {A} class s (k : str → str → option A) :
  (∀ m c r, class c = true → k m (c :: r) = None) →
  plus_greedy class s k =
    match span class s with
    | ([], _) => None
    | (run, rest) => k run rest
    end.
Proof.
  revert k. induction s as [|c s IH]; intros k Hk; simpl; [done|].
  destruct (class c) eqn:Hc; [|done].
  rewrite IH by (intros; by apply Hk).
  destruct (span class s) as [[|d run] rest] eqn:E.
  - by apply span_empty in E as ->.
  - destruct (k (c :: d :: run) rest) eqn:Ek; [done|].
    pose proof (span_app _ _ _ _ E) as ->.
    apply span_run in E. apply Forall_cons in E as [Hd _].
    simpl. by apply Hk.
Qed.

(** The backtracking matcher finds exactly the three maximal runs. *)
Lemma match_here_runs p s : match_here p s = match_runs p s.
Proof.
  unfold match_here, match_runs.
  rewrite plus_greedy_maximal.
  2:{ intros m c r Hc. simpl. unfold non_vowel. by rewrite Hc. }
  destruct (span (is_vowel p) s) as [g1 r1].
  destruct g1 as [|c1 g1].
  { destruct (span (non_vowel p) r1) as [g2 r2].
    by destruct (span (is_vowel p) r2). }
  rewrite plus_greedy_maximal.
  2:{ intros m c r Hc. simpl. unfold non_vowel in Hc.
      by destruct (is_vowel p c). }
  destruct (span (non_vowel p) r1) as [g2 r2].
  destruct g2 as [|c2 g2].
  { by destruct (span (is_vowel p) r2). }
  rewrite plus_greedy_total by (intros; eauto).
  destruct (span (is_vowel p) r2) as [[|c3 g3] r3]; done.
Qed.

Lemma match_runs_Some p s g1 g2 g3 rest :
  match_runs p s = Some ((g1, g2, g3), rest) →
  s = g1 ++ g2 ++ rest ∧ g1 ≠ [] ∧ g2 ≠ [] ∧ g3 ≠ [] ∧
  span (is_vowel p) s = (g1, g2 ++ rest) ∧
  span (non_vowel p) (g2 ++ rest) = (g2, rest) ∧
  g3 = (span (is_vowel p) rest).1.
Proof.
  unfold match_runs.
  destruct (span (is_vowel p) s) as [a r1] eqn:E1.
  destruct (span (non_vowel p) r1) as [b r2] eqn:E2.
  destruct (span (is_vowel p) r2) as [c r3] eqn:E3.
  destruct a as [|? ?], b as [|? ?], c as [|? ?]; try done.
  intros [= <- <- <- <-].
  apply span_app in E2 as E2'. subst r1.
  apply span_app in E1 as E1'.
  rewrite E3. done.
Qed.

(** No match starts anywhere in a run of vowels: there is no non-vowel
    for the middle group. *)
Lemma findall_from_vowels fuel p s :
  Forall (λ c, is_vowel p c = true) s → findall_from fuel p s = [].
Proof.
  revert s. induction fuel as [|fuel IH]; intros s Hs; simpl; [done|].
  rewrite match_here_runs. unfold match_runs.
  rewrite (span_all _ _ Hs). simpl.
  destruct s as [|c s]; [done|].
  apply Forall_cons in Hs as [_ Hs].
  by apply IH.
Qed.

(** Every match has a middle group that is not empty and holds no vowel,
    between two groups of vowels. *)
Lemma findall_from_groups fuel p s g1 g2 g3 :
  (g1, g2, g3) ∈ findall_from fuel p s →
  g1 ≠ [] ∧ g2 ≠ [] ∧ g3 ≠ [] ∧
  Forall (λ c, is_vowel p c = true) g1 ∧
  Forall (λ c, is_vowel p c = false) g2 ∧
  Forall (λ c, is_vowel p c = true) g3.
Proof.
  revert s. induction fuel as [|fuel IH]; intros s; simpl.
  { intros H. by apply elem_of_nil in H. }
  rewrite match_here_runs.
  destruct (match_runs p s) as [[[[a b] c] rest]|] eqn:E.
  - intros [[= -> -> ->]|H]%elem_of_cons; [|by eapply IH].
    apply match_runs_Some in E as (_ & ? & ? & ? & E1 & E2 & ->).
    repeat split; try done.
    + by apply span_run in E1.
    + apply span_run in E2. eapply Forall_impl; [exact E2|].
      intros x. unfold non_vowel. by destruct (is_vowel p x).
    + destruct (span (is_vowel p) rest) as [run rest'] eqn:E3.
      by apply span_run in E3.
  - destruct s as [|c s]; [intros H; by apply elem_of_nil in H|].
    by apply IH.
Qed.

(** In a text that begins and ends with a vowel and holds a non-vowel,
    the pattern matches at the head and leaves a text that again begins
    and ends with a vowel. *)
Lemma match_runs_between_vowels p s :
  starts_with_vowel p s → ends_with_vowel p s → ¬ all_vowels p s →
  ∃ g1 g2 g3 rest,
    match_runs p s = Some ((g1, g2, g3), rest) ∧
    s = g1 ++ g2 ++ rest ∧ g1 ≠ [] ∧ g2 ≠ [] ∧
    starts_with_vowel p rest ∧ ends_with_vowel p rest ∧
    (all_vowels p rest → g3 = rest).
Proof.
  intros (c & Hhead & Hc) (d & Hlast & Hd) Hnot.
  unfold match_runs.
  destruct (span (is_vowel p) s) as [g1 r1] eqn:E1.
  pose proof (span_app _ _ _ _ E1) as Hs.
  pose proof (span_run _ _ _ _ E1) as Hg1.
  pose proof (span_rest _ _ _ _ E1) as Hr1.
  destruct g1 as [|c1 g1].
  { simpl in Hs. subst r1. destruct s as [|x s]; [done|].
    simpl in Hhead. injection Hhead as ->. congruence. }
  destruct r1 as [|x r1].
  { rewrite app_nil_r in Hs. subst s. done. }
  destruct (span (non_vowel p) (x :: r1)) as [g2 r2] eqn:E2.
  pose proof (span_app _ _ _ _ E2) as Hs2.
  pose proof (span_run _ _ _ _ E2) as Hg2.
  pose proof (span_rest _ _ _ _ E2) as Hr2.
  destruct g2 as [|c2 g2].
  { simpl in E2. unfold non_vowel in E2. rewrite Hr1 in E2. simpl in E2.
    destruct (span (λ c, negb (is_vowel p c)) r1); done. }
  destruct r2 as [|y r2].
  { exfalso. rewrite app_nil_r in Hs2. rewrite Hs2 in Hs. subst s.
    rewrite last_app in Hlast.
    destruct (last (c2 :: g2)) as [z|] eqn:Hz.
    - injection Hlast as ->.
      assert (Hin : d ∈ c2 :: g2).
      { apply last_Some in Hz as [l' ->]. set_solver. }
      rewrite Forall_forall in Hg2. apply Hg2 in Hin.
      unfold non_vowel in Hin. rewrite Hd in Hin. done.
    - by apply last_None in Hz. }
  assert (Hy : is_vowel p y = true).
  { unfold non_vowel in Hr2. by destruct (is_vowel p y). }
  destruct (span (is_vowel p) (y :: r2)) as [g3 r3] eqn:E3.
  destruct g3 as [|c3 g3].
  { simpl in E3. rewrite Hy in E3.
    destruct (span (is_vowel p) r2); done. }
  eexists _, _, _, _. split; [done|].
  split; [by rewrite Hs, Hs2|].
  split; [done|]. split; [done|].
  split; [by exists y|].
  split.
  - exists d. split; [|done].
    rewrite Hs, Hs2 in Hlast.
    rewrite !last_app in Hlast. simpl last in Hlast at 1.
    destruct (last (y :: r2)) eqn:Hl; [done|]. by apply last_None in Hl.
  - intros Hall. apply span_all in Hall. rewrite Hall in E3.
    by injection E3 as <- <-.
Qed.

Lemma to_segment_eq g1 g2 g3 : to_segment (g1, g2, g3) = (g1, (g2, g3)).
Proof. done. Qed.

Lemma leading_middle_cons key middle next segments :
  leading_middle ((key, (middle, next)) :: segments)
  = key ++ middle ++ leading_middle segments.
Proof. unfold leading_middle. simpl. by rewrite <- app_assoc. Qed.

(** The segments tile the text: the leading vowels and middles, one after
    the other, followed by the last run of vowels. *)
Lemma findall_from_tiles fuel p s :
  length s < fuel →
  starts_with_vowel p s → ends_with_vowel p s → ¬ all_vowels p s →
  let segments := map to_segment (findall_from fuel p s) in
  leading_middle segments ++ last_trailing segments = s.
Proof.
  revert s. induction fuel as [|fuel IH]; intros s Hlen Hhead Hlast Hnot;
    [lia|].
  destruct (match_runs_between_vowels p s Hhead Hlast Hnot)
    as (g1 & g2 & g3 & rest & Hm & Hs & Hg1 & Hg2 & Hh' & Hl' & Hg3).
  simpl. rewrite match_here_runs, Hm. simpl map.
  rewrite leading_middle_cons.
  assert (Hlen' : length rest < fuel).
  { rewrite Hs, !length_app in Hlen.
    destruct g1; [done|]. simpl in Hlen. lia. }
  destruct (decide (all_vowels p rest)) as [Hall|Hnall].
  - rewrite (findall_from_vowels _ _ _ Hall). simpl.
    rewrite (Hg3 Hall). unfold last_trailing. simpl.
    rewrite Hs. by rewrite app_nil_r, <- app_assoc.
  - specialize (IH rest Hlen' Hh' Hl' Hnall). simpl in IH.
    destruct (map to_segment (findall_from fuel p rest)) as [|x segs] eqn:E.
    + simpl in IH. subst rest. destruct Hh' as (? & ? & _). done.
    + unfold last_trailing in *. rewrite last_cons_cons.
      rewrite <- !app_assoc, IH. done.
Qed.

Lemma split_word_findall p w :
  split_word p w = map to_segment (findall p (MARKER ++ w ++ MARKER)).
Proof. unfold split_word. by rewrite <- app_assoc. Qed.

Lemma is_vowel_elem p c : is_vowel p c = true ↔ c ∈ vowel_class p.
Proof. unfold is_vowel. apply bool_decide_eq_true. Qed.

Lemma padded_starts p w :
  marker ∈ vowel_class p → starts_with_vowel p (MARKER ++ w ++ MARKER).
Proof. intros H. exists marker. split; [done|]. by apply is_vowel_elem. Qed.

Lemma padded_ends p w :
  marker ∈ vowel_class p → ends_with_vowel p (MARKER ++ w ++ MARKER).
Proof.
  intros H. exists marker. split; [|by apply is_vowel_elem].
  rewrite app_assoc. apply last_snoc.
Qed.

Lemma padded_all_vowels p w :
  marker ∈ vowel_class p →
  all_vowels p (MARKER ++ w ++ MARKER) ↔ all_vowels p w.
Proof.
  intros H. unfold all_vowels. rewrite !Forall_app.
  assert (Forall (λ c, is_vowel p c = true) MARKER).
  { repeat constructor. by apply is_vowel_elem. }
  tauto.
Qed.

(** A word without a non-vowel yields no segment. *)
Lemma split_word_vowels p w :
  marker ∈ vowel_class p → all_vowels p w → split_word p w = [].
Proof.
  intros Hm Hw. rewrite split_word_findall. unfold findall.
  rewrite findall_from_vowels; [done|]. by apply padded_all_vowels.
Qed.

Lemma split_word_segment p w key middle next :
  (key, (middle, next)) ∈ split_word p w →
  key ≠ [] ∧ middle ≠ [] ∧ next ≠ [] ∧
  all_vowels p key ∧
  Forall (λ c, is_vowel p c = false) middle ∧
  all_vowels p next.
Proof.
  rewrite split_word_findall. intros H.
  apply list_elem_of_fmap in H as ([[g1 g2] g3] & [= -> -> ->] & H).
  by apply findall_from_groups in H.
Qed.

Lemma split_word_tiles p w :
  marker ∈ vowel_class p → ¬ all_vowels p w →
  leading_middle (split_word p w) ++ last_trailing (split_word p w)
  = MARKER ++ w ++ MARKER.
Proof.
  intros Hm Hw. rewrite split_word_findall. unfold findall.
  apply findall_from_tiles.
  - lia.
  - by apply padded_starts.
  - by apply padded_ends.
  - by rewrite padded_all_vowels.
Qed.

(** C3, as amended.  A word made of vowels only, whose padded form such
    as [~aa~] is a single run of vowels, yields no pair at all; and in
    every pair that segmentation yields, for any word, the middle
    component is a non-empty run of non-vowels. *)
Theorem split_word_middle_nonempty (p : pattern) (w : str) :
  class_literal (vowel_class p) →
  marker ∈ vowel_class p →
  (all_vowels p w → split_word p w = []) ∧
  (∀ key middle next,
     (key, (middle, next)) ∈ split_word p w →
     middle ≠ [] ∧ Forall (λ c, c ∉ vowel_class p) middle).
Proof.
  intros _ Hm. split; [by apply split_word_vowels|].
  intros key middle next H.
  apply split_word_segment in H as (_ & ? & _ & _ & H & _).
  split; [done|]. eapply Forall_impl; [exact H|].
  intros c Hc Hin. apply is_vowel_elem in Hin. congruence.
Qed.

Lemma english_literal : class_literal ({[ marker ]} ∪ english).
Proof.
  intros c Hc. unfold english in Hc.
  repeat (apply elem_of_union in Hc as [Hc|Hc]);
    apply elem_of_singleton in Hc; subst c; done.
Qed.

Lemma english_marker : marker ∈ vowel_class english_pattern.
Proof. simpl. set_solver. Qed.

Lemma split_word_middle_nonempty_witness :
  split_word english_pattern (of_string "aa") = [] ∧
  (∀ key middle next,
     (key, (middle, next)) ∈ split_word english_pattern (of_string "banana") →
     middle ≠ []).
Proof.
  split.
  - apply (split_word_middle_nonempty english_pattern (of_string "aa")
             english_literal english_marker).
    repeat constructor.
  - intros key middle next H.
    apply (split_word_middle_nonempty english_pattern (of_string "banana")
             english_literal english_marker) in H.
    apply H.
Defined.

(** C3, as stated, fails: the padded all-vowel word [~aa~] yields no pair
    with an empty middle, because it yields no pair. *)
Lemma split_word_aa_no_empty_middle :
  ¬ ∃ s : segment,
      s ∈ split_word english_pattern (of_string "aa") ∧ s.2.1 = [].
Proof.
  intros (s & Hs & _).
  assert (E : split_word english_pattern (of_string "aa") = [])
    by (vm_compute; reflexivity).
  rewrite E in Hs. by apply elem_of_nil in Hs.
Qed.

(** C4, as amended.  For a word that holds a non-vowel, the leading
    vowels and middles of its segments, one after the other, followed by
    the trailing vowels of the last segment, are the word between two
    markers; stripping the markers gives the word back when the marker
    does not occur in it.  (A word of vowels only has no segment.) *)
Theorem split_word_roundtrip (p : pattern) (w : str) :
  class_literal (vowel_class p) →
  marker ∈ vowel_class p →
  (∃ c, c ∈ w ∧ c ∉ vowel_class p) →
  let segments := split_word p w in
  leading_middle segments ++ last_trailing segments = MARKER ++ w ++ MARKER
  ∧ (marker ∉ w →
     strip_chars MARKER (leading_middle segments ++ last_trailing segments) = w).
Proof.
  intros _ Hm (c & Hc & Hnv). simpl.
  assert (Hw : ¬ all_vowels p w).
  { intros Hall. unfold all_vowels in Hall. rewrite Forall_forall in Hall.
    apply Hall in Hc. by apply is_vowel_elem in Hc. }
  rewrite split_word_tiles by done.
  split; [done|]. apply strip_padded.
Qed.

Lemma split_word_roundtrip_witness :
  let segments := split_word english_pattern (of_string "banana") in
  strip_chars MARKER (leading_middle segments ++ last_trailing segments)
  = of_string "banana".
Proof.
  apply (split_word_roundtrip english_pattern (of_string "banana")
           english_literal english_marker).
  - exists "b"%char. split; [by left|]. vm_compute. done.
  - vm_compute. intros H. 
    repeat (apply elem_of_cons in H as [H|H]; [done|]).
    by apply elem_of_nil in H.
Defined.

(** C4, as stated, fails: without the trailing vowels of the last
    segment the final [a] of [banana] is lost. *)
Lemma split_word_banana_loses_tail :
  strip_chars MARKER
    (leading_middle (split_word english_pattern (of_string "banana")))
  ≠ of_string "banana".
Proof. vm_compute. done. Qed.

(** ** Running methods *)

Lemma bind_Return {A B} (m : M A) (k : A → M B) st a st' :
  m st = (Return a, st') → (m ≫= k) st = k a st'.
Proof. intros H. unfold mbind, M_bind. by rewrite H. Qed.

Lemma bind_Raise {A B} (m : M A) (k : A → M B) st e st' :
  m st = (Raise e, st') → (m ≫= k) st = (Raise e, st').
Proof. intros H. unfold mbind, M_bind. by rewrite H. Qed.

Lemma bind_OutOfFuel {A B} (m : M A) (k : A → M B) st st' :
  m st = (OutOfFuel, st') → (m ≫= k) st = (OutOfFuel, st').
Proof. intros H. unfold mbind, M_bind. by rewrite H. Qed.

(** A sequence returns only if its first part returned. *)
Lemma bind_Return_inv {A B} (m : M A) (k : A → M B) st b st' :
  (m ≫= k) st = (Return b, st') →
  ∃ a st1, m st = (Return a, st1) ∧ k a st1 = (Return b, st').
Proof.
  unfold mbind, M_bind. destruct (m st) as [[a|e|] st1]; [eauto|done|done].
Qed.

Lemma lift_Return_inv {A} (o : outcome A) st a st' :
  lift o st = (Return a, st') → o = Return a ∧ st' = st.
Proof. unfold lift. by intros [= -> ->]. Qed.

Lemma outcome_bind_Return_inv {A B} (o : outcome A) (k : A → outcome B) b :
  o ≫= k = Return b → ∃ a, o = Return a ∧ k a = Return b.
Proof. destruct o; [eauto|done|done]. Qed.


(** ** The weighted choice *)

Lemma running_sum_cons k c candidates n :
  running_sum ((k, c) :: candidates) (S n) = (c + running_sum candidates n)%Z.
Proof. done. Qed.

Lemma sum_from_counted acc candidates :
  sum_from acc (map snd (counted candidates))
  = Return (acc + total_weight candidates)%Z.
Proof.
  revert acc. induction candidates as [|[k c] l IH]; intros acc.
  - simpl. f_equal. unfold total_weight, running_sum. simpl. lia.
  - simpl. rewrite IH. f_equal. unfold total_weight. simpl length.
    rewrite running_sum_cons. lia.
Qed.

Lemma exceeds_iff (current : Z) (pick : Q) :
  negb (Qle_bool (inject_Z current) pick) = true ↔ (pick < inject_Z current)%Q.
Proof.
  rewrite negb_true_iff. split.
  - intros H. apply Qnot_le_lt. intros Hle. apply Qle_bool_iff in Hle.
    congruence.
  - intros H. destruct (Qle_bool (inject_Z current) pick) eqn:E; [|done].
    apply Qle_bool_iff in E. by apply Qlt_not_le in H.
Qed.

Lemma not_exceeds_iff (current : Z) (pick : Q) :
  negb (Qle_bool (inject_Z current) pick) = false ↔ (inject_Z current <= pick)%Q.
Proof.
  rewrite negb_false_iff. apply Qle_bool_iff.
Qed.

(** The loop stops at the first entry whose running sum exceeds the
    pick. *)
Lemma weighted_scan_first pick candidates acc :
  (inject_Z acc <= pick)%Q →
  (pick < inject_Z (acc + total_weight candidates))%Q →
  ∃ i k c,
    candidates !! i = Some (k, c) ∧
    weighted_scan pick acc (counted candidates) = Return (key_value k) ∧
    (pick < inject_Z (acc + running_sum candidates (S i)))%Q ∧
    ∀ j, j < i → (inject_Z (acc + running_sum candidates (S j)) <= pick)%Q.
Proof.
  revert acc. induction candidates as [|[k c] l IH]; intros acc Hlo Hhi.
  - exfalso. unfold total_weight, running_sum in Hhi. simpl in Hhi.
    rewrite Z.add_0_r in Hhi. by apply Qlt_not_le in Hhi.
  - simpl. destruct (negb (Qle_bool (inject_Z (acc + c)) pick)) eqn:E.
    + exists 0, k, c. split; [done|]. split; [done|].
      apply exceeds_iff in E. split.
      * rewrite running_sum_cons. unfold running_sum. simpl.
        by rewrite Z.add_0_r.
      * intros j Hj. lia.
    + apply not_exceeds_iff in E.
      destruct (IH (acc + c)%Z E) as (i & k' & c' & Hi & Hscan & Hex & Hbefore).
      { unfold total_weight in *. simpl length in Hhi.
        rewrite running_sum_cons in Hhi. by rewrite <- Z.add_assoc. }
      exists (S i), k', c'. split; [done|]. split; [done|]. split.
      * rewrite running_sum_cons. by rewrite Z.add_assoc.
      * intros [|j] Hj.
        -- rewrite running_sum_cons. unfold running_sum. simpl.
           by rewrite Z.add_0_r.
        -- rewrite running_sum_cons, Z.add_assoc. apply Hbefore. lia.
Qed.

Lemma weighted_choice_run st kind candidates :
  truthy (weighted (self st)) = true →
  _weighted_random_choice (VDict kind (counted candidates)) st
  = (weighted_scan (uniform_result (tape st (drawn st))) 0 (counted candidates),
     after_draw st).
Proof.
  intros Hw. unfold _weighted_random_choice.
  unfold mbind at 1. unfold M_bind, get_weighted. rewrite Hw.
  unfold values, items. simpl.
  unfold mbind, M_bind, lift, sum_values.
  rewrite sum_from_counted. unfold uniform, next_draw, mbind, M_bind, mret, M_ret.
  done.
Qed.

(** C6.  In a weighted generator, for candidates with integer counts and
    a draw [d] with [0 <= d < total], the choice returns the first
    candidate, in stored order, whose running sum of counts exceeds [d],
    and uses one draw.  In particular, with counts 2, 3 and 5 the draws
    1, 4 and 9 select the first, second and third candidate. *)
Theorem weighted_choice_first_exceeding :
  (∀ st kind candidates d,
     truthy (weighted (self st)) = true →
     uniform_result (tape st (drawn st)) = d →
     (0 <= d)%Q → (d < inject_Z (total_weight candidates))%Q →
     ∃ i k c,
       candidates !! i = Some (k, c) ∧
       _weighted_random_choice (VDict kind (counted candidates)) st
       = (Return (key_value k), after_draw st) ∧
       (d < inject_Z (running_sum candidates (S i)))%Q ∧
       ∀ j, j < i → (inject_Z (running_sum candidates (S j)) <= d)%Q) ∧
  (∀ st kind k1 k2 k3,
     truthy (weighted (self st)) = true →
     let table := VDict kind (counted [(k1, 2%Z); (k2, 3%Z); (k3, 5%Z)]) in
     let d := uniform_result (tape st (drawn st)) in
     (d = 1%Q → _weighted_random_choice table st = (Return (key_value k1), after_draw st)) ∧
     (d = 4%Q → _weighted_random_choice table st = (Return (key_value k2), after_draw st)) ∧
     (d = 9%Q → _weighted_random_choice table st = (Return (key_value k3), after_draw st))).
Proof.
  split.
  - intros st kind candidates d Hw Hd Hlo Hhi.
    destruct (weighted_scan_first d candidates 0%Z) as (i & k & c & Hi & Hs & Hex & Hb);
      [done|done|].
    exists i, k, c. split; [done|]. split; [|split; [done|done]].
    rewrite weighted_choice_run by done. by rewrite Hd, Hs.
  - intros st kind k1 k2 k3 Hw table d. unfold table.
    rewrite weighted_choice_run by done. fold d.
    repeat split; intros ->; done.
Qed.

Lemma weighted_choice_first_exceeding_witness :
  let candidates := [(KStr (of_string "a"), 2%Z);
                     (KStr (of_string "e"), 3%Z);
                     (KStr (of_string "o"), 5%Z)] in
  let st := example_state true 4 0 in
  ∃ i k c,
    candidates !! i = Some (k, c) ∧
    _weighted_random_choice (VDict PlainDict (counted candidates)) st
    = (Return (key_value k), after_draw st) ∧
    (4 < inject_Z (running_sum candidates (S i)))%Q ∧
    ∀ j, j < i → (inject_Z (running_sum candidates (S j)) <= 4)%Q.
Proof.
  apply (proj1 weighted_choice_first_exceeding
           (example_state true 4 0) PlainDict _ 4%Q);
    [reflexivity | reflexivity | done | done].
Defined.

(** ** What the methods do to the set objects *)

Lemma only_marker_added_refl st : only_marker_added st st.
Proof. intros l. by left. Qed.

Lemma only_marker_added_trans st1 st2 st3 :
  only_marker_added st1 st2 → only_marker_added st2 st3 →
  only_marker_added st1 st3.
Proof.
  intros H12 H23 l. destruct (H12 l) as [E|E], (H23 l) as [E'|E'];
    rewrite E', E; auto.
  right. by rewrite (assoc_L (∪)), (idemp_L (∪)).
Qed.

Lemma only_marker_added_sets st st' :
  sets st' = sets st → only_marker_added st st'.
Proof. intros E l. left. by rewrite E. Qed.

Lemma only_marker_added_elem st st' l c :
  only_marker_added st st' → c ∈ sets st !!! l → c ∈ sets st' !!! l.
Proof. intros H Hc. destruct (H l) as [->| ->]; set_solver. Qed.

Lemma adds_ret {A} (a : A) : adds_only_marker (mret a).
Proof. intros st. apply only_marker_added_refl. Qed.

Lemma adds_lift {A} (o : outcome A) : adds_only_marker (lift o).
Proof. intros st. apply only_marker_added_refl. Qed.

Lemma adds_bind {A B} (m : M A) (k : A → M B) :
  adds_only_marker m → (∀ a, adds_only_marker (k a)) →
  adds_only_marker (m ≫= k).
Proof.
  intros Hm Hk st. specialize (Hm st). unfold mbind, M_bind.
  destruct (m st) as [[a|e|] st1]; simpl in *; [|done|done].
  eapply only_marker_added_trans; [exact Hm|apply Hk].
Qed.

Lemma adds_try_except {A} (body handler : M A) e :
  adds_only_marker body → adds_only_marker handler →
  adds_only_marker (try_except body e handler).
Proof.
  intros Hb Hh st. specialize (Hb st). unfold try_except.
  destruct (body st) as [[a|e'|] st1]; simpl in *; [done| |done].
  destruct (decide (e' = e)); [|done].
  eapply only_marker_added_trans; [exact Hb|apply Hh].
Qed.

Lemma adds_attribute {A} (name : generator → option A) :
  adds_only_marker (attribute name).
Proof.
  intros st. unfold attribute.
  destruct (name (self st)); apply only_marker_added_refl.
Qed.

Lemma adds_get_weighted : adds_only_marker get_weighted.
Proof. intros st. apply only_marker_added_refl. Qed.

Lemma adds_update_self f : adds_only_marker (update_self f).
Proof. intros st. by apply only_marker_added_sets. Qed.

Lemma adds_read_set l : adds_only_marker (read_set l).
Proof. intros st. apply only_marker_added_refl. Qed.

Lemma adds_next_draw : adds_only_marker next_draw.
Proof. intros st. by apply only_marker_added_sets. Qed.

Lemma adds_open name : adds_only_marker (open name).
Proof.
  intros st. unfold open.
  destruct name as [[p| |]|]; try apply only_marker_added_refl.
  destruct (files st !! p); apply only_marker_added_refl.
Qed.

Lemma adds_set_add l : adds_only_marker (set_add l marker).
Proof.
  intros st l'. simpl. destruct (decide (l = l')) as [->|Hne].
  - right. by rewrite lookup_total_insert_eq.
  - left. by rewrite lookup_total_insert_ne.
Qed.

Create HintDb adds discriminated.
Global Hint Resolve adds_ret adds_lift adds_attribute adds_get_weighted
  adds_update_self adds_read_set adds_next_draw adds_open adds_set_add : adds.

(** Takes a method apart along its binds and branches. *)
Ltac adds_step :=
  match goal with
  | |- adds_only_marker (_ ≫= _) => apply adds_bind
  | |- adds_only_marker (try_except _ _ _) => apply adds_try_except
  | |- adds_only_marker (if ?b then _ else _) => destruct b
  | |- adds_only_marker (match ?x with _ => _ end) => destruct x
  | |- adds_only_marker (raise _) => apply adds_lift
  | |- adds_only_marker out_of_fuel => apply adds_lift
  | |- ∀ _, _ => intro
  | |- _ => solve [auto with adds]
  end.
Ltac adds := repeat adds_step.

Lemma adds_set_weighted v : adds_only_marker (set_weighted v).
Proof. apply adds_update_self. Qed.
Lemma adds_set_vowels l : adds_only_marker (set_vowels l).
Proof. apply adds_update_self. Qed.
Lemma adds_set_regex p : adds_only_marker (set_regex p).
Proof. apply adds_update_self. Qed.
Lemma adds_set_components v : adds_only_marker (set_components v).
Proof. apply adds_update_self. Qed.
Lemma adds_set_starts v : adds_only_marker (set_starts v).
Proof. apply adds_update_self. Qed.
Global Hint Resolve adds_set_weighted adds_set_vowels adds_set_regex
  adds_set_components adds_set_starts : adds.

Lemma adds_uniform max : adds_only_marker (uniform max).
Proof. unfold uniform. adds. Qed.

Lemma adds_choice seq : adds_only_marker (choice seq).
Proof. unfold choice. adds. Qed.
Global Hint Resolve adds_uniform adds_choice : adds.

Lemma adds_weighted_random_choice choices :
  adds_only_marker (_weighted_random_choice choices).
Proof. unfold _weighted_random_choice. adds. Qed.
Global Hint Resolve adds_weighted_random_choice : adds.

Lemma adds_for_each {A} (body : A → M unit) xs :
  (∀ x, adds_only_marker (body x)) → adds_only_marker (for_each body xs).
Proof. intros H. induction xs; simpl; adds. Qed.

Lemma adds_count_segment s : adds_only_marker (count_segment s).
Proof.
  unfold count_segment, count_start, count_component. adds.
Qed.

Lemma adds_freeze : adds_only_marker freeze.
Proof. unfold freeze. adds. Qed.
Global Hint Resolve adds_count_segment adds_freeze : adds.

Lemma adds_seed_with recur dictionary language vowels append :
  (∀ l, adds_only_marker (recur l)) →
  adds_only_marker (seed_with recur dictionary language vowels append).
Proof.
  intros H. unfold seed_with. adds. all: apply adds_for_each; adds.
Qed.

Lemma adds_seed dictionary language vowels append :
  adds_only_marker (seed dictionary language vowels append).
Proof.
  apply adds_seed_with. intros l. apply adds_seed_with. intros _. adds.
Qed.
Global Hint Resolve adds_seed : adds.

Lemma adds_init dictionary language weighted vowels :
  adds_only_marker (init dictionary language weighted vowels).
Proof. unfold init. adds. Qed.

Lemma adds_walk fuel word current : adds_only_marker (walk fuel word current).
Proof.
  revert word current. induction fuel as [|fuel IH]; intros; simpl; adds.
Qed.
Global Hint Resolve adds_init adds_walk : adds.

Lemma adds_generate_word_ fuel : adds_only_marker (_generate_word fuel).
Proof. unfold _generate_word. adds. Qed.
Global Hint Resolve adds_generate_word_ : adds.

Lemma adds_next_item tries fuel minimum maximum :
  adds_only_marker (next_item tries fuel minimum maximum).
Proof. induction tries as [|tries IH]; simpl; adds. Qed.
Global Hint Resolve adds_next_item : adds.

Lemma adds_islice n tries fuel minimum maximum :
  adds_only_marker (islice n tries fuel minimum maximum).
Proof. induction n as [|n IH]; simpl; adds. Qed.
Global Hint Resolve adds_islice : adds.

Lemma adds_save : adds_only_marker save.
Proof. unfold save. adds. Qed.

Lemma adds_load file : adds_only_marker (load file).
Proof. unfold load. adds. Qed.
Global Hint Resolve adds_save adds_load : adds.

Lemma adds_perform c : adds_only_marker (perform c).
Proof. destruct c; simpl; unfold generate_word, generate; adds. Qed.

Lemma seed_with_marker_in recur dictionary language vowels append st :
  (∀ l, adds_only_marker (recur l)) →
  marker ∈ sets (seed_with recur dictionary language vowels append st).2
           !!! default ENGLISH_VOWELS vowels.
Proof.
  intros H. unfold seed_with.
  set (target := default ENGLISH_VOWELS vowels).
  unfold mbind at 1. unfold M_bind. simpl.
  unfold mbind at 1. unfold M_bind. simpl.
  match goal with
  | |- context [ (?m ≫= ?k) ?s ] =>
      assert (Hrest : only_marker_added s ((m ≫= k) s).2);
      [ | eapply only_marker_added_elem; [exact Hrest|] ]
  end.
  - generalize dependent target. intros target.
    match goal with |- only_marker_added ?s (?m ?s).2 =>
      assert (Hm : adds_only_marker m); [|apply Hm] end.
    adds. all: apply adds_for_each; adds.
  - simpl. rewrite lookup_total_insert_eq.
    apply elem_of_union_l. by apply elem_of_singleton.
Qed.

(** C10.  Whatever its arguments and however it ends, a call to [seed]
    leaves the set it was given (the object [ENGLISH_VOWELS] when
    [vowels] is omitted) holding the marker besides what it held: the set
    object itself is changed, and every holder of a reference to it sees
    the change.  No method ever takes the marker out again: once in a set
    object, it stays there through every later call, on any instance. *)
Theorem seed_mutates_vowel_set :
  (∀ dictionary language vowels append st,
     let target := default ENGLISH_VOWELS vowels in
     let st' := (seed dictionary language vowels append st).2 in
     sets st' !!! target = {[ marker ]} ∪ sets st !!! target) ∧
  (∀ dictionary language append st,
     marker ∈ sets (seed dictionary language None append st).2
              !!! ENGLISH_VOWELS) ∧
  (∀ c st l, marker ∈ sets st !!! l → marker ∈ sets (perform c st).2 !!! l).
Proof.
  split; [|split].
  - intros dictionary language vowels append st target st'.
    assert (Hin : marker ∈ sets st' !!! target).
    { apply seed_with_marker_in. intros l. apply adds_seed_with.
      intros _. adds. }
    destruct (adds_seed dictionary language vowels append st target)
      as [E|E]; fold st' in E; [|done].
    rewrite E in Hin. rewrite E. symmetry.
    apply subseteq_union_1_L. by apply singleton_subseteq_l.
  - intros dictionary language append st.
    apply (seed_with_marker_in _ _ _ None). intros l. apply adds_seed_with.
    intros _. adds.
  - intros c st l H. eapply only_marker_added_elem; [|exact H].
    apply adds_perform.
Qed.

Lemma seed_mutates_vowel_set_witness :
  let st := (seed None (Some (Words [of_string "banana"])) None false
               (example_state true 0 0)).2 in
  marker ∈ sets st !!! ENGLISH_VOWELS ∧
  marker ∈ sets (perform (CallInit None None (VBool false) None) st).2
           !!! ENGLISH_VOWELS.
Proof.
  intros st.
  assert (H : marker ∈ sets st !!! ENGLISH_VOWELS)
    by apply (proj1 (proj2 seed_mutates_vowel_set)).
  split; [exact H|].
  exact (proj2 (proj2 seed_mutates_vowel_set) _ st ENGLISH_VOWELS H).
Defined.

(** ** Generating before seeding *)

(** C2: the code at the failing input.  On a generator constructed
    without a dictionary or a language, [_generate_word] and
    [generate_word] raise [AttributeError], not [EmptyDictionaryError]:
    [__init__] never assigned [self.components], which the emptiness
    test reads.  The state is left as it was: nothing was drawn. *)
Theorem unseeded_generator_raises_attribute_error
    (weighted : value) (vowels : option loc) (l : limit) (tries fuel : nat)
    (st : state) :
  let st' := (init None None weighted vowels st).2 in
  _generate_word fuel st' = (Raise AttributeError, st') ∧
  generate_word l (S tries) fuel st' = (Raise AttributeError, st') ∧
  drawn st' = drawn st.
Proof. by destruct l. Qed.

(** ** Generating without a limit *)

Lemma next_item_no_maximum tries fuel minimum st w st' :
  next_item tries fuel minimum None st ≠ (Return w, st').
Proof.
  revert st. induction tries as [|tries IH]; intros st; simpl; [done|].
  intros H. apply bind_Return_inv in H as (item & st1 & _ & H).
  apply bind_Return_inv in H as (ok & st2 & Hok & H).
  apply lift_Return_inv in Hok as [Hok ->].
  unfold within in Hok.
  destruct (minimum <? Z.of_nat (length item))%Z; [done|].
  injection Hok as <-. by apply IH in H.
Qed.

Lemma next_item_first_nonempty tries fuel st w st' :
  _generate_word fuel st = (Return w, st') → w ≠ [] →
  next_item (S tries) fuel 0 None st = (Raise TypeError, st').
Proof.
  intros H Hw. simpl. rewrite (bind_Return _ _ _ _ _ H).
  unfold within. destruct w as [|c w]; [done|]. done.
Qed.

(** ** The segments of a word without the marker *)

Lemma findall_from_infix fuel p s g1 g2 g3 :
  (g1, g2, g3) ∈ findall_from fuel p s →
  ∃ pre post, s = pre ++ g1 ++ g2 ++ g3 ++ post.
Proof.
  revert s. induction fuel as [|fuel IH]; intros s; simpl.
  { intros H. by apply elem_of_nil in H. }
  rewrite match_here_runs.
  destruct (match_runs p s) as [[[[a b] c] rest]|] eqn:E.
  - intros [[= -> -> ->]|H]%elem_of_cons.
    + apply match_runs_Some in E as (-> & _ & _ & _ & _ & _ & ->).
      destruct (span (is_vowel p) rest) as [run rest'] eqn:E3.
      apply span_app in E3 as ->. by exists [], rest'.
    + apply IH in H as (pre & post & ->).
      apply match_runs_Some in E as (-> & _).
      exists (a ++ b ++ pre), post. by rewrite <- !app_assoc.
  - destruct s as [|c s]; [intros H; by apply elem_of_nil in H|].
    intros H. apply IH in H as (pre & post & ->). by exists (c :: pre), post.
Qed.

Lemma marker_not_in_app (a b : str) :
  marker ∉ (a ++ b) ↔ (marker ∉ a) ∧ (marker ∉ b).
Proof. rewrite elem_of_app. tauto. Qed.

Lemma last_case {A} (l : list A) : l = [] ∨ ∃ x l', l = l' ++ [x].
Proof.
  destruct (last l) as [x|] eqn:E.
  - right. exists x. by apply last_Some.
  - left. by apply last_None.
Qed.

Lemma split_word_good p w key middle next :
  marker ∈ vowel_class p → marker ∉ w →
  (key, (middle, next)) ∈ split_word p w →
  good_segment (key, (middle, next)).
Proof.
  intros Hm Hw H.
  pose proof (split_word_segment _ _ _ _ _ H)
    as (Hk & Hmid & Hn & _ & Hmv & _).
  rewrite split_word_findall in H.
  apply list_elem_of_fmap in H as ([[g1 g2] g3] & [= <- <- <-] & H).
  apply findall_from_infix in H as (pre & post & Hs).
  change (MARKER ++ w ++ MARKER) with (marker :: w ++ [marker]) in Hs.
  unfold good_segment. simpl. repeat split.
  - done.
  - intros Hin. rewrite Forall_forall in Hmv. apply Hmv in Hin.
    apply is_vowel_elem in Hm. congruence.
  - (* the next vowels lie after the first character *)
    destruct middle as [|x middle]; [done|].
    assert (∃ pre', w ++ [marker] = pre' ++ next ++ post) as [pre' Hw'].
    { destruct pre as [|y pre].
      - destruct key as [|y key]; [done|]. simpl in Hs.
        injection Hs as _ Hs. exists (key ++ x :: middle).
        by rewrite <- app_assoc.
      - simpl in Hs. injection Hs as _ Hs.
        exists (pre ++ key ++ x :: middle). by rewrite <- !app_assoc. }
    destruct (last_case post) as [->|(c & post' & ->)].
    + rewrite app_nil_r in Hw'.
      destruct (last_case next) as [->|(c & next' & ->)]; [done|].
      rewrite app_assoc in Hw'. apply app_inj_tail in Hw' as [-> <-].
      right. exists next'. split; [done|].
      by apply marker_not_in_app in Hw as [_ ?].
    + rewrite !app_assoc in Hw'. apply app_inj_tail in Hw' as [-> _].
      left. split; [done|].
      apply marker_not_in_app in Hw as [Hw _].
      by apply marker_not_in_app in Hw as [_ ?].
  - (* a key that begins with the marker begins the word *)
    intros Hstart. destruct key as [|c r]; [done|].
    simpl in Hstart. destruct (decide (c = marker)) as [->|]; [|done].
    exists r. split; [done|].
    destruct middle as [|x middle]; [done|].
    destruct pre as [|y pre].
    + simpl in Hs. injection Hs as Hs.
      assert (Hne : (x :: middle) ++ next ++ post ≠ []) by done.
      destruct (last_case ((x :: middle) ++ next ++ post))
        as [E|(d & rest & E)]; [done|].
      change (r ++ x :: middle ++ next ++ post)
        with (r ++ (x :: middle) ++ next ++ post) in Hs.
      rewrite E, app_assoc in Hs. apply app_inj_tail in Hs as [-> _].
      by apply marker_not_in_app in Hw as [? _].
    + exfalso. simpl in Hs. injection Hs as _ Hs.
      destruct (last_case ((x :: middle) ++ next ++ post))
        as [E|(d & rest & E)]; [done|].
      change (pre ++ marker :: r ++ x :: middle ++ next ++ post)
        with (pre ++ (marker :: r) ++ (x :: middle) ++ next ++ post) in Hs.
      rewrite E, !app_assoc in Hs. apply app_inj_tail in Hs as [-> _].
      apply Hw. rewrite !elem_of_app. left. right. by left.
Qed.

Lemma lower_char_marker c : c ≠ marker → lower_char c ≠ marker.
Proof.
  destruct c as [[] [] [] [] [] [] [] []]; vm_compute; congruence.
Qed.

Lemma lower_marker_free (s : str) : marker ∉ s → marker ∉ lower s.
Proof.
  intros H Hin. unfold lower in Hin.
  apply list_elem_of_fmap in Hin as (c & Hc & Hin).
  symmetry in Hc. revert Hc. apply lower_char_marker. by intros ->.
Qed.

Lemma strip_marker_free (s : str) : marker ∉ s → marker ∉ strip s.
Proof.
  intros H. unfold strip.
  assert (Hall : Forall (λ c, c ≠ marker) s).
  { apply Forall_forall. intros c Hc ->. done. }
  set (keep := λ c, negb (isspace c)).
  pose proof (rstrip_Forall _ keep _ (lstrip_Forall _ keep _ Hall)) as Hs.
  rewrite Forall_forall in Hs. intros Hin. by apply Hs in Hin.
Qed.

Lemma normalised_marker_free items :
  marker_free items → marker_free (normalised items).
Proof.
  unfold marker_free, normalised. intros H.
  apply Forall_fmap. apply Forall_forall. intros w Hw.
  apply list_elem_of_filter in Hw as [_ Hw].
  rewrite Forall_forall in H. simpl.
  by apply lower_marker_free, strip_marker_free, H.
Qed.

Lemma segments_good p items :
  marker ∈ vowel_class p → marker_free items →
  Forall good_segment (flat_map (split_word p) (normalised items)).
Proof.
  intros Hm Hfree. apply normalised_marker_free in Hfree.
  apply Forall_forall. intros [key [middle next]] H.
  apply list_elem_of_In, in_flat_map in H as (w & Hw & H).
  apply list_elem_of_In in Hw, H.
  unfold marker_free in Hfree. rewrite Forall_forall in Hfree.
  eapply split_word_good; eauto.
Qed.

(** ** Seeding keeps the shape of the chain *)

Lemma dict_store_keys (P : key → Prop) k v entries :
  Forall (λ e, P e.1) entries → P k →
  Forall (λ e : key * value, P e.1) (dict_store k v entries).
Proof.
  intros H Hk. induction H as [|[k' v'] l Hx Hl IH]; simpl.
  - by repeat constructor.
  - destruct (key_eqb k' k); constructor; auto.
Qed.

Lemma dict_store_values (P : value → Prop) k v entries :
  Forall (λ e, P e.2) entries → P v →
  Forall (λ e : key * value, P e.2) (dict_store k v entries).
Proof.
  intros H Hv. induction H as [|[k' v'] l Hx Hl IH]; simpl.
  - by repeat constructor.
  - destruct (key_eqb k' k); constructor; auto.
Qed.

Lemma dict_lookup_values (P : value → Prop) k v entries :
  Forall (λ e, P e.2) entries → dict_lookup k entries = Some v → P v.
Proof.
  induction 1 as [|[k' v'] l Hx _ IH]; simpl; [done|].
  destruct (key_eqb k' k); [by intros [= <-]|done].
Qed.

Lemma dict_comprehension_keys (P : key → Prop) pairs :
  Forall (λ e, P e.1) pairs →
  Forall (λ e : key * value, P e.1) (dict_comprehension pairs).
Proof.
  unfold dict_comprehension.
  assert (G : ∀ acc, Forall (λ e : key * value, P e.1) acc →
            Forall (λ e, P e.1) pairs →
            Forall (λ e : key * value, P e.1)
              (fold_left (λ entries e, dict_store e.1 e.2 entries) pairs acc)).
  { induction pairs as [|[k v] l IH]; intros acc Hacc Hl; simpl; [done|].
    apply Forall_cons in Hl as [Hk Hl]. apply IH; [|done].
    by apply dict_store_keys. }
  intros H. by apply G.
Qed.

Lemma dict_comprehension_values (P : value → Prop) pairs :
  Forall (λ e, P e.2) pairs →
  Forall (λ e : key * value, P e.2) (dict_comprehension pairs).
Proof.
  unfold dict_comprehension.
  assert (G : ∀ acc, Forall (λ e : key * value, P e.2) acc →
            Forall (λ e, P e.2) pairs →
            Forall (λ e : key * value, P e.2)
              (fold_left (λ entries e, dict_store e.1 e.2 entries) pairs acc)).
  { induction pairs as [|[k v] l IH]; intros acc Hacc Hl; simpl; [done|].
    apply Forall_cons in Hl as [Hk Hl]. apply IH; [|done].
    by apply dict_store_values. }
  intros H. by apply G.
Qed.

Lemma mapM_Return_Forall {A B} (f : A → outcome B) (P : A → Prop)
    (Q : B → Prop) l l' :
  (∀ a b, P a → f a = Return b → Q b) →
  Forall P l → mapM f l = Return l' → Forall Q l'.
Proof.
  intros Hf H. revert l'. induction H as [|a l Ha _ IH]; intros l'; simpl.
  - intros [= <-]. constructor.
  - intros E. apply outcome_bind_Return_inv in E as (b & Eb & E).
    apply outcome_bind_Return_inv in E as (bs & Ebs & E).
    injection E as <-. constructor; eauto.
Qed.

Lemma hash_pair_value (pair : str * str) :
  hash_key (pair_value pair) = Return (KTuple [KStr pair.1; KStr pair.2]).
Proof. done. Qed.

Lemma subscript_starts_ok w s key n s' :
  starts_ok w s → good_start key →
  subscript s (VStr key) = Return (n, s') → starts_ok w s'.
Proof.
  intros Hs Hk. destruct s as [a|vs|vs|kind es]; try done; simpl.
  destruct (dict_lookup (KStr key) es); [by intros [= _ <-]|].
  destruct kind; [done|by intros [= _ <-]|].
  intros [= _ <-]. simpl in *. apply Forall_app. split; [done|].
  repeat constructor. by exists key.
Qed.

Lemma store_starts_ok w s key v s' :
  starts_ok w s → good_start key →
  store_item s (VStr key) v = Return s' → starts_ok w s'.
Proof.
  intros Hs Hk. destruct s as [a|vs|vs|kind es]; try done; simpl.
  intros [= <-]. simpl in *. apply dict_store_keys; [done|]. by exists key.
Qed.

Lemma subscript_table_ok w c index inner c' :
  table_ok w c →
  subscript c index = Return (inner, c') →
  table_ok w c' ∧ (successors_ok w inner ∨ inner = VInt 0).
Proof.
  intros Hc. destruct c as [a|vs|vs|kind es]; try done; simpl.
  intros E. apply outcome_bind_Return_inv in E as (k & Hk & E).
  destruct (dict_lookup k es) eqn:El.
  - injection E as <- <-. split; [done|]. left.
    eapply (dict_lookup_values (successors_ok w)); eauto.
  - destruct kind; [done| |]; injection E as <- <-.
    + split; [done|]. by right.
    + split; [|left; constructor]. simpl in *. apply Forall_app.
      split; [done|]. repeat constructor.
Qed.

Lemma subscript_successors_ok w inner pair n inner' :
  successors_ok w inner ∨ inner = VInt 0 →
  good_middle pair.1 → good_next pair.2 →
  subscript inner (pair_value pair) = Return (n, inner') →
  successors_ok w inner'.
Proof.
  intros [Hs| ->] Hm Hn; [|done].
  destruct inner as [a|vs|vs|kind es]; try done. simpl.
  destruct (dict_lookup _ es); [by intros [= _ <-]|].
  destruct kind; [done|by intros [= _ <-]|].
  intros [= _ <-]. simpl in *. apply Forall_app. split; [done|].
  repeat constructor. by exists pair.1, pair.2.
Qed.

Lemma store_successors_ok w inner pair v inner' :
  successors_ok w inner →
  good_middle pair.1 → good_next pair.2 →
  store_item inner (pair_value pair) v = Return inner' →
  successors_ok w inner'.
Proof.
  intros Hs Hm Hn. destruct inner as [a|vs|vs|kind es]; try done; simpl.
  intros [= <-]. simpl in *. apply dict_store_keys; [done|].
  by exists pair.1, pair.2.
Qed.

Lemma store_table_ok w c index inner c' :
  table_ok w c → successors_ok w inner →
  store_item c index inner = Return c' → table_ok w c'.
Proof.
  intros Hc Hi. destruct c as [a|vs|vs|kind es]; try done; simpl.
  intros E. apply outcome_bind_Return_inv in E as (k & Hk & E).
  injection E as <-. simpl in *.
  by apply (dict_store_values (successors_ok w)).
Qed.

Section Invariant.
Variable T : bool → value → Prop.
Variable S : bool → value → Prop.
Variable w : bool.

Lemma keeps_ret {A} (a : A) : keeps T S w (mret a).
Proof. by intros st. Qed.

Lemma keeps_lift {A} (o : outcome A) : keeps T S w (lift o).
Proof. by intros st. Qed.

Lemma keeps_bind {A B} (m : M A) (k : A → M B) :
  keeps T S w m → (∀ a, keeps T S w (k a)) → keeps T S w (m ≫= k).
Proof.
  intros Hm Hk st H. specialize (Hm st H). unfold mbind, M_bind.
  destruct (m st) as [[a|e|] st1]; simpl in *; [|done|done].
  by apply Hk.
Qed.

Lemma keeps_lift_bind {A B} (o : outcome A) (k : A → M B) :
  (∀ a, o = Return a → keeps T S w (k a)) →
  keeps T S w (lift o ≫= k).
Proof.
  intros Hk st H. unfold mbind, M_bind, lift.
  destruct o as [a|e|]; [|done|done]. by apply Hk.
Qed.

Lemma keeps_starts_bind {B} (k : value → M B) :
  (∀ s, S w s → keeps T S w (k s)) →
  keeps T S w (attribute starts ≫= k).
Proof.
  intros Hk st H. unfold mbind, M_bind, attribute.
  destruct (starts (self st)) as [s|] eqn:E; [|done].
  apply Hk; [|done]. destruct H as (_ & _ & H). by rewrite E in H.
Qed.

Lemma keeps_components_bind {B} (k : value → M B) :
  (∀ c, T w c → keeps T S w (k c)) →
  keeps T S w (attribute components ≫= k).
Proof.
  intros Hk st H. unfold mbind, M_bind, attribute.
  destruct (components (self st)) as [c|] eqn:E; [|done].
  apply Hk; [|done]. destruct H as (_ & H & _). by rewrite E in H.
Qed.

Lemma keeps_set_starts s : S w s → keeps T S w (set_starts s).
Proof. intros Hs st (Hw & Hc & _). by repeat split. Qed.

Lemma keeps_set_components c : T w c → keeps T S w (set_components c).
Proof. intros Hc st (Hw & _ & Hs). by repeat split. Qed.

Lemma keeps_get_weighted_bind {B} (k : value → M B) :
  (∀ v, truthy v = w → keeps T S w (k v)) →
  keeps T S w (get_weighted ≫= k).
Proof.
  intros Hk st H. unfold mbind, M_bind, get_weighted.
  apply Hk; [|done]. by destruct H.
Qed.

Lemma for_each_keeps {A} (body : A → M unit) (P : A → Prop) xs :
  (∀ x, P x → keeps T S w (body x)) → Forall P xs →
  keeps T S w (for_each body xs).
Proof.
  intros Hb. induction 1 as [|x xs Hx _ IH]; simpl.
  - apply keeps_ret.
  - apply keeps_bind; [by apply Hb|]. by intros _.
Qed.

Lemma holds_self st st' :
  self st' = self st → holds T S w st → holds T S w st'.
Proof. unfold holds. by intros ->. Qed.
End Invariant.

Lemma chain_inv_ok st :
  chain_inv (truthy (weighted (self st))) st ↔ chain_ok (self st).
Proof. unfold chain_inv, holds, chain_ok. tauto. Qed.

Lemma count_start_keeps w key :
  good_start key → keeps_chain w (count_start key).
Proof.
  intros Hk. unfold count_start.
  apply keeps_starts_bind; intros s Hs.
  apply keeps_lift_bind; intros [n s1] E1.
  pose proof (subscript_starts_ok _ _ _ _ _ Hs Hk E1) as Hs1.
  apply keeps_bind; [by apply keeps_set_starts|intros _].
  apply keeps_lift_bind; intros n' _.
  apply keeps_lift_bind; intros s2 E2.
  apply keeps_set_starts. eapply store_starts_ok; eauto.
Qed.

Lemma count_component_keeps w key pair :
  good_middle pair.1 → good_next pair.2 →
  keeps_chain w (count_component key pair).
Proof.
  intros Hm Hn. unfold count_component.
  apply keeps_components_bind; intros c Hc.
  apply keeps_lift_bind; intros [inner c1] E1.
  destruct (subscript_table_ok _ _ _ _ _ Hc E1) as [Hc1 Hi].
  apply keeps_bind; [by apply keeps_set_components|intros _].
  apply keeps_lift_bind; intros [n inner1] E2.
  pose proof (subscript_successors_ok _ _ _ _ _ Hi Hm Hn E2) as Hi1.
  apply keeps_lift_bind; intros c2 E3.
  pose proof (store_table_ok _ _ _ _ _ Hc1 Hi1 E3) as Hc2.
  apply keeps_bind; [by apply keeps_set_components|intros _].
  apply keeps_lift_bind; intros n' _.
  apply keeps_lift_bind; intros inner2 E4.
  pose proof (store_successors_ok _ _ _ _ _ Hi1 Hm Hn E4) as Hi2.
  apply keeps_lift_bind; intros c3 E5.
  apply keeps_set_components. eapply store_table_ok; eauto.
Qed.

Lemma count_segment_keeps w s : good_segment s → keeps_chain w (count_segment s).
Proof.
  destruct s as [key [middle next]]. intros (Hm & Hn & Hk).
  change (good_middle middle) in Hm. change (good_next next) in Hn.
  change (startswith key MARKER = true → good_start key) in Hk.
  unfold count_segment. apply keeps_bind.
  - destruct (startswith key MARKER); [|apply keeps_ret].
    by apply count_start_keeps, Hk.
  - intros _. by apply count_component_keeps.
Qed.

Lemma to_dict_successors_ok v d :
  successors_ok true v → to_dict v = Return d → successors_ok true d.
Proof.
  destruct v as [a|vs|vs|kind es]; try done; simpl.
  - by intros [? _].
  - by intros H [= <-].
Qed.

Lemma to_dict_starts_ok s d :
  starts_ok true s → to_dict s = Return d → starts_ok true d.
Proof.
  destruct s as [a|vs|vs|kind es]; try done; simpl.
  - by intros [? _].
  - by intros H [= <-].
Qed.

Lemma list_of_keys_successors_ok w v l :
  successors_ok w v → list_of_keys v = Return l → successors_ok false l.
Proof.
  destruct v as [a|vs|vs|kind es]; try done; simpl.
  intros H [= <-]. split; [done|]. apply Forall_fmap.
  eapply Forall_impl; [exact H|]. intros [k v] (m & n & E & ? & ?).
  simpl in E. subst k. by exists m, n.
Qed.

Lemma list_of_keys_starts_ok w s l :
  starts_ok w s → list_of_keys s = Return l → starts_ok false l.
Proof.
  destruct s as [a|vs|vs|kind es]; try done; simpl.
  intros H [= <-]. split; [done|]. apply Forall_fmap.
  eapply Forall_impl; [exact H|]. intros [k v] (key & E & ?).
  simpl in E. subst k. by exists key.
Qed.

Lemma items_table_ok w c entries :
  table_ok w c → items c = Return entries →
  Forall (λ e : key * value, successors_ok w e.2) entries.
Proof. destruct c; try done. simpl. by intros H [= <-]. Qed.

Lemma freeze_keeps w : keeps_chain w freeze.
Proof.
  unfold freeze. apply keeps_get_weighted_bind; intros v Hv. rewrite Hv.
  destruct w.
  - apply keeps_components_bind; intros c Hc.
    apply keeps_lift_bind; intros entries E1.
    apply keeps_lift_bind; intros frozen E2.
    apply keeps_bind.
    { apply keeps_set_components. simpl.
      apply (dict_comprehension_values (successors_ok true)).
      eapply mapM_Return_Forall; [|by eapply items_table_ok|exact E2].
      intros [k x] [k' d] Hx E. simpl in *.
      apply outcome_bind_Return_inv in E as (d' & Ed & [= <- <-]).
      simpl. by eapply to_dict_successors_ok. }
    intros _. apply keeps_starts_bind; intros s Hs.
    apply keeps_lift_bind; intros d Ed.
    apply keeps_set_starts. by eapply to_dict_starts_ok.
  - apply keeps_components_bind; intros c Hc.
    apply keeps_lift_bind; intros entries E1.
    apply keeps_lift_bind; intros frozen E2.
    apply keeps_bind.
    { apply keeps_set_components. simpl.
      apply (dict_comprehension_values (successors_ok false)).
      eapply mapM_Return_Forall; [|by eapply items_table_ok|exact E2].
      intros [k x] [k' d] Hx E. simpl in *.
      apply outcome_bind_Return_inv in E as (d' & Ed & [= <- <-]).
      simpl. by eapply list_of_keys_successors_ok. }
    intros _. apply keeps_starts_bind; intros s Hs.
    apply keeps_lift_bind; intros d Ed.
    apply keeps_set_starts. by eapply list_of_keys_starts_ok.
Qed.

Lemma seed_with_prepared recur dictionary language vowels append st :
  seed_with recur dictionary language vowels append st
  = seed_branches recur dictionary language (seed_prepared vowels append st).
Proof. by destruct append. Qed.

Lemma seed_prepared_inv w vowels (append : bool) st :
  (if append then chain_inv w st else truthy (weighted (self st)) = w) →
  chain_inv w (seed_prepared vowels append st).
Proof.
  destruct append.
  - by intros (Hw & Hc & Hs).
  - intros Hw. split; [done|]. split; simpl; constructor.
Qed.

Lemma seed_prepared_regex vowels append st p :
  regex (self (seed_prepared vowels append st)) = Some p →
  marker ∈ vowel_class p.
Proof.
  simpl. intros [= <-]. simpl. rewrite lookup_total_insert_eq.
  apply elem_of_union_l. by apply elem_of_singleton.
Qed.

(** The counting loop and the freezing, from a state whose pattern knows
    the marker. *)
Lemma seed_language_keeps w language st :
  (∀ p, regex (self st) = Some p → marker ∈ vowel_class p) →
  (∀ items, source_items language = Return items → marker_free items) →
  chain_inv w st →
  chain_inv w
    ((items ← lift (source_items language);
      p ← attribute regex;
      for_each count_segment (flat_map (split_word p) (normalised items));;
      freeze) st).2.
Proof.
  intros Hp Hitems H.
  unfold mbind at 1. unfold M_bind, lift.
  destruct (source_items language) as [items|e|] eqn:E; [|done|done].
  unfold mbind at 1. unfold M_bind, attribute.
  destruct (regex (self st)) as [p|] eqn:Ep; [|done].
  assert (K : keeps_chain w
    (for_each count_segment (flat_map (split_word p) (normalised items));;
     freeze)).
  { apply keeps_bind; [|intros _; apply freeze_keeps].
    apply (for_each_keeps _ _ _ _ good_segment).
    - intros x. apply count_segment_keeps.
    - apply segments_good; eauto. }
  by apply K.
Qed.

Lemma source_truthy_None : source_truthy None = false.
Proof. done. Qed.

(** The nested call builds a chain anew. *)
Lemma seed_nested_makes w language st :
  truthy (weighted (self st)) = w →
  (∀ items, source_items language = Return items → marker_free items) →
  chain_inv w (seed_nested language st).2.
Proof.
  intros Hw Hitems. unfold seed_nested. rewrite seed_with_prepared.
  unfold seed_branches. rewrite source_truthy_None. simpl andb.
  rewrite andb_true_r.
  pose proof (seed_prepared_inv w None false st Hw) as H.
  destruct (source_truthy language); [|by apply H].
  apply seed_language_keeps; [apply seed_prepared_regex|done|by apply H].
Qed.

Lemma words_of_items st x items :
  source_items x = Return items →
  ∀ w, w ∈ items → w ∈ words_of st x.
Proof.
  destruct x as [[p|lines|words]|]; simpl; try done.
  - intros [= <-] w Hw. apply elem_of_app. by right.
  - by intros [= <-].
  - by intros [= <-].
Qed.

Lemma marker_free_app a b :
  marker_free (a ++ b) ↔ marker_free a ∧ marker_free b.
Proof. apply Forall_app. Qed.

Lemma marker_free_subset (a b : list str) :
  (∀ w, w ∈ a → w ∈ b) → marker_free b → marker_free a.
Proof.
  unfold marker_free. rewrite !Forall_forall. intros Hab Hb w Hw.
  by apply Hb, Hab.
Qed.

(** A call to [seed] on words without the marker leaves a chain of the
    expected shape, however it ends: a new chain when it does not append,
    the chain it found, with more counts, when it does. *)
Lemma seed_chain_inv w dictionary language vowels (append : bool) st :
  marker_free (words_of st dictionary ++ words_of st language) →
  (if append then chain_inv w st else truthy (weighted (self st)) = w) →
  chain_inv w (seed dictionary language vowels append st).2.
Proof.
  intros Hfree Happ. apply marker_free_app in Hfree as [Hd Hl].
  unfold seed. rewrite seed_with_prepared.
  pose proof (seed_prepared_inv w vowels append st Happ) as H.
  set (st1 := seed_prepared vowels append st) in *.
  assert (Hf : files st1 = files st) by done.
  unfold seed_branches.
  destruct (source_truthy dictionary && negb (source_truthy language)).
  - (* the dictionary: a file name, or else read as the language *)
    assert (Hfallback : ∀ st2, truthy (weighted (self st2)) = w →
              chain_inv w (seed_nested dictionary st2).2).
    { intros st2 Hw2. apply seed_nested_makes; [done|].
      intros items Hi. eapply marker_free_subset; [|exact Hd].
      by apply words_of_items. }
    unfold try_except, open.
    destruct dictionary as [[p|lines|words]|].
    + unfold mbind, M_bind. rewrite Hf.
      destruct (files st !! p) as [lines|] eqn:Ep; [|done].
      assert (Hn : chain_inv w (seed_nested (Some (File lines)) st1).2).
      { apply seed_nested_makes; [by destruct H|].
        intros items [= <-]. eapply marker_free_subset; [|exact Hd].
        intros x Hx. apply elem_of_app. left.
        exact (eq_ind_r (λ o, x ∈ default [] o) Hx Ep). }
      destruct (seed_nested (Some (File lines)) st1) as [[[]|e|] st2];
        [done| |done].
      destruct (decide (e = TypeError)); [|done].
      apply Hfallback. by destruct Hn.
    + apply Hfallback. by destruct H.
    + apply Hfallback. by destruct H.
    + apply Hfallback. by destruct H.
  - destruct (source_truthy language && negb (source_truthy dictionary));
      [|done].
    apply seed_language_keeps; [apply seed_prepared_regex| |done].
    intros items Hi. eapply marker_free_subset; [|exact Hl].
    by apply words_of_items.
Qed.

(** ** Words generated from a chain of the expected shape *)

Lemma endswith_nil : endswith [] MARKER = false.
Proof. done. Qed.

Lemma endswith_snoc (s : str) c :
  endswith (s ++ [c]) MARKER = bool_decide (c = marker).
Proof.
  unfold endswith. rewrite rev_app_distr. simpl.
  destruct (decide (c = marker)) as [->|Hne].
  - by rewrite bool_decide_eq_true_2.
  - by rewrite bool_decide_eq_false_2.
Qed.

Lemma endswith_marker_free (s : str) : marker ∉ s → endswith s MARKER = false.
Proof.
  intros H. destruct (last_case s) as [->|(c & s' & ->)]; [done|].
  rewrite endswith_snoc. apply bool_decide_eq_false_2. intros ->.
  apply H. apply elem_of_app. right. by left.
Qed.

Lemma as_str_useless v s : useless v → as_str v ≠ Return s.
Proof. by intros [->|[->| ->]]. Qed.

Lemma unpack2_useless v p : useless v → unpack2 v ≠ Return p.
Proof. by intros [->|[->| ->]]. Qed.

Lemma weighted_scan_member pick acc entries v :
  weighted_scan pick acc entries = Return v →
  v = VNone ∨ ∃ e, e ∈ entries ∧ v = key_value e.1.
Proof.
  revert acc. induction entries as [|[k x] l IH]; intros acc; simpl.
  - intros [= <-]. by left.
  - intros E. apply outcome_bind_Return_inv in E as (acc' & _ & E).
    destruct (negb (Qle_bool (inject_Z acc') pick)).
    + injection E as <-. right. exists (k, x). split; [by left|done].
    + apply IH in E as [->|(e & He & ->)]; [by left|].
      right. exists e. split; [by right|done].
Qed.

Lemma dict_lookup_non_numeric entries (i : Z) :
  Forall (λ e : key * value, non_numeric e.1) entries →
  dict_lookup (KAtom (AInt i)) entries = None.
Proof.
  induction 1 as [|[k x] l Hk _ IH]; simpl; [done|].
  destruct k as [[| | |]|]; simpl in *; done.
Qed.

Lemma sequence_index_mod n r :
  n ≠ 0 →
  sequence_index n (Z.of_nat (r mod n)) = Return (r mod n).
Proof.
  intros Hn. unfold sequence_index.
  pose proof (Nat.mod_upper_bound r n Hn) as Hlt.
  assert ((Z.of_nat (r mod n) <? 0)%Z = false) as -> by lia.
  assert ((0 <=? Z.of_nat (r mod n))%Z = true) as -> by lia.
  assert ((Z.of_nat (r mod n) <? Z.of_nat n)%Z = true) as -> by lia.
  simpl. by rewrite Nat2Z.id.
Qed.

(** What [random.choice] returns. *)
Lemma choice_result seq st v st' :
  choice seq st = (Return v, st') →
  self st' = self st ∧
  match seq with
  | VList vs => v ∈ vs
  | VDict _ entries =>
      Forall (λ e : key * value, non_numeric e.1) entries → useless v
  | VAtom (AInt _) => False
  | _ => True
  end.
Proof.
  unfold choice. intros E.
  apply bind_Return_inv in E as (n & st1 & En & E).
  apply lift_Return_inv in En as [En ->].
  destruct (decide (n = 0)) as [|Hn]; [done|].
  apply bind_Return_inv in E as (d & st1 & Ed & E).
  unfold next_draw in Ed. injection Ed as <- <-.
  apply bind_Return_inv in E as ([x c] & st2 & Ex & E).
  apply lift_Return_inv in Ex as [Ex ->].
  injection E as <- <-. split; [done|].
  destruct seq as [[| |z|]|vs|vs|kind es]; try done.
  - simpl in En. injection En as <-. simpl in Ex.
    rewrite sequence_index_mod in Ex by done. simpl in Ex.
    destruct (vs !! _) as [y|] eqn:Ey; [|done].
    injection Ex as <- _. by eapply list_elem_of_lookup_2.
  - intros Hk. simpl in Ex.
    rewrite dict_lookup_non_numeric in Ex by done.
    destruct kind; [done| |]; injection Ex as <- _.
    + right. by left.
    + right. by right.
Qed.

(** What the generator's choice returns from a collection of the expected
    shape: one of its candidates, or something useless. *)
Lemma weighted_random_choice_result w Pk Pv choices st v st' :
  (∀ k, Pk k → non_numeric k ∧ Pv (key_value k)) →
  truthy (weighted (self st)) = w →
  collection_ok w Pk Pv choices →
  _weighted_random_choice choices st = (Return v, st') →
  self st' = self st ∧ (Pv v ∨ useless v).
Proof.
  intros HP Hw Hc. unfold _weighted_random_choice.
  unfold mbind at 1. unfold M_bind, get_weighted.
  destruct (truthy (weighted (self st))) eqn:Et.
  - intros E.
    apply bind_Return_inv in E as (counts & st1 & E1 & E).
    apply lift_Return_inv in E1 as [E1 ->].
    apply bind_Return_inv in E as (max & st1 & E2 & E).
    apply lift_Return_inv in E2 as [E2 ->].
    apply bind_Return_inv in E as (pick & st1 & E3 & E).
    unfold uniform, next_draw, mbind, M_bind, mret, M_ret in E3.
    injection E3 as <- <-.
    apply bind_Return_inv in E as (entries & st1 & E4 & E).
    apply lift_Return_inv in E4 as [E4 ->].
    apply lift_Return_inv in E as [E ->].
    split; [done|].
    destruct choices as [a|vs|vs|kind es]; try done.
    simpl in E4. injection E4 as <-.
    apply weighted_scan_member in E as [->|(e & He & ->)].
    + right. by left.
    + left. simpl in Hc. rewrite Forall_forall in Hc.
      by apply HP, Hc.
  - intros E. apply choice_result in E as [Hs E]. split; [done|].
    destruct choices as [[| |z|]|vs|vs|kind es]; try done.
    + simpl in Hc. subst w. destruct Hc as [_ Hc].
      rewrite Forall_forall in Hc. left. by apply Hc.
    + right. apply E. simpl in Hc.
      eapply Forall_impl; [exact Hc|]. intros e He. by apply HP.
Qed.

Lemma start_key_ok_value k :
  start_key_ok k → non_numeric k ∧ start_ok (key_value k).
Proof. intros (s & -> & H). split; [done|]. by exists s. Qed.

Lemma pair_key_ok_value k :
  pair_key_ok k → non_numeric k ∧ pair_ok (key_value k).
Proof. intros (m & n & -> & H). split; [done|]. by exists m, n. Qed.

Lemma starts_collection w s :
  starts_ok w s → collection_ok w start_key_ok start_ok s.
Proof. by destruct s. Qed.

Lemma successors_collection w v :
  successors_ok w v ∨ v = VInt 0 → collection_ok w pair_key_ok pair_ok v.
Proof. intros [H| ->]; [by destruct v|done]. Qed.

(** The walk, once it returns, returns a word between two markers. *)
Lemma walk_result w fuel word current st result st' :
  chain_inv w st → walk_ready word current →
  walk fuel word current st = (Return result, st') →
  ∃ body, result = MARKER ++ body ++ MARKER ∧ body ≠ [] ∧ marker ∉ body.
Proof.
  revert word current st.
  induction fuel as [|fuel IH]; intros word current st Hinv Hready; [done|].
  simpl. intros E.
  apply bind_Return_inv in E as (segment & st1 & Es & E).
  apply lift_Return_inv in Es as [Es ->].
  (* what the word is once the segment is appended *)
  assert (Hword :
    (∃ body, word ++ segment = marker :: body ∧ (marker ∉ body) ∧
             (body = [] ∨ endswith segment MARKER = false)) ∨
    (∃ body, word ++ segment = MARKER ++ body ++ MARKER ∧ body ≠ [] ∧
             (marker ∉ body) ∧ endswith segment MARKER = true)).
  { destruct Hready as [[-> Hc]|(body & n & -> & Hb & Hmb & -> & Hn)].
    - destruct Hc as [(key & -> & r & -> & Hr)|Hu];
        [|by apply as_str_useless with (s := segment) in Hu].
      injection Es as <-. left. exists r. split; [done|]. split; [done|].
      destruct (last_case r) as [->|(c & r' & ->)]; [by left|right].
      rewrite app_comm_cons, endswith_snoc. apply bool_decide_eq_false_2.
      intros ->. apply Hr. apply elem_of_app. right. by left.
    - injection Es as <-.
      destruct Hn as [[Hn Hmn]|(n' & -> & Hmn)].
      + left. exists (body ++ n). split; [done|].
        split; [by apply marker_not_in_app|].
        right. by apply endswith_marker_free.
      + right. exists (body ++ n'). split; [by rewrite <- !app_assoc|].
        split; [by destruct body|]. split; [by apply marker_not_in_app|].
        unfold MARKER. rewrite endswith_snoc. by apply bool_decide_eq_true_2. }
  destruct Hword as [(body & Hw & Hmb & Hcont)|(body & Hw & Hb & Hmb & Hend)].
  - (* the walk goes on *)
    assert (Hgo : endswith segment MARKER
                  && negb (bool_decide (word ++ segment = MARKER)) = false).
    { destruct Hcont as [->| ->]; [|done].
      rewrite Hw. rewrite bool_decide_eq_true_2 by done.
      by rewrite andb_false_r. }
    rewrite Hgo in E. clear Hgo.
    apply bind_Return_inv in E as (c & st1 & Ec & E).
    unfold attribute in Ec.
    destruct (components (self st)) as [c0|] eqn:Ecomp; [|done].
    injection Ec as <- <-.
    assert (Hc : table_ok w c0).
    { destruct Hinv as [<- [H _]]. by rewrite Ecomp in H. }
    apply bind_Return_inv in E as ([choices c1] & st1 & Esub & E).
    apply lift_Return_inv in Esub as [Esub ->].
    destruct (subscript_table_ok _ _ _ _ _ Hc Esub) as [Hc1 Hchoices].
    apply bind_Return_inv in E as ([] & st1 & Eset & E).
    assert (Hinv1 : chain_inv w st1).
    { pose proof (keeps_set_components table_ok starts_ok w c1 Hc1 st Hinv)
        as H.
      by rewrite Eset in H. }
    clear Eset.
    apply bind_Return_inv in E as (picked & st2 & Epick & E).
    eapply (weighted_random_choice_result w pair_key_ok pair_ok) in Epick
      as [Hself Hpicked];
      [|apply pair_key_ok_value|by destruct Hinv1
       |by apply successors_collection].
    apply bind_Return_inv in E as ([next current'] & st3 & Eun & E).
    apply lift_Return_inv in Eun as [Eun ->].
    destruct Hpicked as [(m & n & -> & Hm & Hn)|Hu];
      [|by apply unpack2_useless with (p := (next, current')) in Hu].
    injection Eun as <- <-.
    apply bind_Return_inv in E as (next' & st3 & En & E).
    apply lift_Return_inv in En as [[= <-] ->].
    eapply IH; [|idtac|exact E].
    + by eapply holds_self.
    + right. exists (body ++ m), n. rewrite Hw.
      destruct Hm as [Hm Hmm].
      split; [done|]. split; [by destruct body, m|].
      split; [by apply marker_not_in_app|]. done.
  - (* the walk ends *)
    assert (Hstop : endswith segment MARKER
                    && negb (bool_decide (word ++ segment = MARKER)) = true).
    { rewrite Hend, Hw. rewrite bool_decide_eq_false_2; [done|].
      destruct body; [done|]. done. }
    rewrite Hstop in E. injection E as <- <-. by exists body.
Qed.

(** A word, once generated, is not empty and holds no marker. *)
Lemma generate_word_result w fuel st word st' :
  chain_inv w st →
  _generate_word fuel st = (Return word, st') →
  word ≠ [] ∧ marker ∉ word.
Proof.
  intros Hinv. unfold _generate_word. intros E.
  apply bind_Return_inv in E as (c & st1 & Ec & E).
  unfold attribute in Ec.
  destruct (components (self st)) as [c0|]; [|done].
  injection Ec as <- <-.
  destruct (negb (truthy c0)); [done|].
  apply bind_Return_inv in E as (s & st1 & Es & E).
  unfold attribute in Es.
  destruct (starts (self st)) as [s0|] eqn:Estarts; [|done].
  injection Es as <- <-.
  assert (Hs : starts_ok w s0).
  { destruct Hinv as [<- [_ H]]. by rewrite Estarts in H. }
  apply bind_Return_inv in E as (current & st1 & Epick & E).
  eapply (weighted_random_choice_result w start_key_ok start_ok) in Epick
    as [Hself Hcur];
    [|apply start_key_ok_value|by destruct Hinv|by apply starts_collection].
  apply bind_Return_inv in E as (result & st2 & Ewalk & E).
  injection E as <- <-.
  eapply (walk_result w) in Ewalk as (body & -> & Hb & Hm).
  - by rewrite strip_padded.
  - by eapply holds_self.
  - left. by split.
Qed.

(** *** Using a generator keeps the chain *)

Lemma keeps_unchanged T S w {A} (m : M A) :
  leaves_self m → keeps T S w m.
Proof. intros H st. apply holds_self, H. Qed.

Lemma leaves_lift {A} (o : outcome A) : leaves_self (lift o).
Proof. by intros st. Qed.

Lemma leaves_ret {A} (a : A) : leaves_self (mret a).
Proof. by intros st. Qed.

Lemma leaves_bind {A B} (m : M A) (k : A → M B) :
  leaves_self m → (∀ a, leaves_self (k a)) → leaves_self (m ≫= k).
Proof.
  intros Hm Hk st. specialize (Hm st). unfold mbind, M_bind.
  destruct (m st) as [[a|e|] st1]; simpl in *; [|done|done].
  by rewrite Hk.
Qed.

Lemma leaves_next_draw : leaves_self next_draw.
Proof. by intros st. Qed.

Lemma leaves_choice seq : leaves_self (choice seq).
Proof.
  unfold choice. apply leaves_bind; [apply leaves_lift|intros n].
  destruct (decide (n = 0)); [apply leaves_lift|].
  apply leaves_bind; [apply leaves_next_draw|intros d].
  apply leaves_bind; [apply leaves_lift|intros [v c]]. apply leaves_ret.
Qed.

Lemma leaves_weighted_random_choice choices :
  leaves_self (_weighted_random_choice choices).
Proof.
  unfold _weighted_random_choice.
  apply leaves_bind; [by intros st|intros w].
  destruct (truthy w); [|apply leaves_choice].
  apply leaves_bind; [apply leaves_lift|intros counts].
  apply leaves_bind; [apply leaves_lift|intros max].
  apply leaves_bind.
  { unfold uniform. apply leaves_bind; [apply leaves_next_draw|intros d].
    apply leaves_ret. }
  intros pick. apply leaves_bind; [apply leaves_lift|intros entries].
  apply leaves_lift.
Qed.

Lemma walk_keeps w fuel word current :
  keeps_chain w (walk fuel word current).
Proof.
  revert word current. induction fuel as [|fuel IH]; intros word current.
  { apply keeps_lift. }
  simpl. apply keeps_lift_bind; intros segment _.
  destruct (_ && _); [apply keeps_ret|].
  apply keeps_components_bind; intros c Hc.
  apply keeps_lift_bind; intros [choices c1] E.
  destruct (subscript_table_ok _ _ _ _ _ Hc E) as [Hc1 _].
  apply keeps_bind; [by apply keeps_set_components|intros _].
  apply keeps_bind;
    [apply keeps_unchanged, leaves_weighted_random_choice|intros picked].
  apply keeps_lift_bind; intros [next current'] _.
  apply keeps_lift_bind; intros next' _. apply IH.
Qed.

Lemma generate_word_keeps w fuel : keeps_chain w (_generate_word fuel).
Proof.
  unfold _generate_word.
  apply keeps_components_bind; intros c Hc.
  destruct (negb (truthy c)); [apply keeps_lift|].
  apply keeps_starts_bind; intros s Hs.
  apply keeps_bind;
    [apply keeps_unchanged, leaves_weighted_random_choice|intros current].
  apply keeps_bind; [apply walk_keeps|intros word]. apply keeps_ret.
Qed.

Lemma next_item_keeps w tries fuel minimum maximum :
  keeps_chain w (next_item tries fuel minimum maximum).
Proof.
  induction tries as [|tries IH]; simpl; [apply keeps_lift|].
  apply keeps_bind; [apply generate_word_keeps|intros item].
  apply keeps_lift_bind; intros ok _.
  destruct ok; [apply keeps_ret|apply IH].
Qed.

Lemma islice_keeps w n tries fuel minimum maximum :
  keeps_chain w (islice n tries fuel minimum maximum).
Proof.
  induction n as [|n IH]; simpl; [apply keeps_ret|].
  apply keeps_bind; [apply next_item_keeps|intros item].
  apply keeps_bind; [apply IH|intros rest]. apply keeps_ret.
Qed.

Lemma save_unchanged st : (save st).2 = st.
Proof.
  unfold save, mbind, M_bind, attribute, lift, get_weighted.
  destruct (components (self st)) as [c|]; [|done].
  destruct (items c) as [entries|e|]; try done.
  destruct (mapM _ entries) as [listed|e|]; try done.
  destruct (starts (self st)) as [s|]; [|done].
  by destruct (to_json _).
Qed.

(** A seeded generator holds a chain of the expected shape. *)
Lemma seeded_chain_inv st :
  seeded st → chain_inv (truthy (weighted (self st))) st.
Proof.
  induction 1 as [st d l wv v Hsrc Hfree _|st d l v append Hfree _ _ IH
                  |st l tries fuel _ IH|st l n tries fuel _ IH|st _ IH].
  - unfold init. unfold mbind, M_bind. simpl. rewrite Hsrc.
    match goal with |- context [seed _ _ _ _ ?s] => set (st0 := s) end.
    assert (Hw : truthy (weighted (self (seed d l (Some (default ENGLISH_VOWELS v)) false st0).2))
                 = truthy wv).
    { by destruct (seed_chain_inv (truthy wv) d l
                     (Some (default ENGLISH_VOWELS v)) false st0 Hfree eq_refl). }
    rewrite Hw. by apply seed_chain_inv.
  - set (w := truthy (weighted (self st))).
    assert (H : chain_inv w (seed d l v append st).2).
    { apply seed_chain_inv; [done|]. destruct append; [by apply IH|done]. }
    pose proof H as [-> _]. exact H.
  - assert (H : chain_inv (truthy (weighted (self st)))
                  (generate_word l tries fuel st).2).
    { unfold generate_word. destruct (unpack_limit l).
      by apply next_item_keeps. }
    pose proof H as [-> _]. exact H.
  - assert (H : chain_inv (truthy (weighted (self st)))
                  (generate l n tries fuel st).2).
    { unfold generate. destruct (unpack_limit l). by apply islice_keeps. }
    pose proof H as [-> _]. exact H.
  - by rewrite save_unchanged.
Qed.

(** C8.  In a generator seeded from words in which the marker does not
    occur, whatever the random module answers and however long the walk
    is allowed to run, a word that [_generate_word] returns has at least
    one character and holds no marker. *)
Theorem generated_word_nonempty_without_marker
    (st : state) (fuel : nat) (word : str) (st' : state) :
  seeded st →
  _generate_word fuel st = (Return word, st') →
  1 ≤ length word ∧ marker ∉ word.
Proof.
  intros Hst E. apply seeded_chain_inv in Hst.
  eapply generate_word_result in E as [Hw Hm]; [|exact Hst].
  split; [|done]. destruct word; [done|]. simpl. lia.
Qed.

Lemma not_in_list_decide (c : ascii) (s : str) :
  bool_decide (c ∈ s) = false → c ∉ s.
Proof. apply bool_decide_eq_false. Qed.

Lemma english_set_literal : class_literal english.
Proof.
  intros c Hc. unfold english in Hc.
  repeat (apply elem_of_union in Hc as [Hc|Hc]);
    apply elem_of_singleton in Hc; subst c; done.
Qed.

Lemma example_literal_sets w d i : literal_sets (example_state w d i).
Proof.
  intros l. simpl. unfold initial_sets.
  destruct (decide (l = ENGLISH_VOWELS)) as [->|Hne].
  - rewrite lookup_total_singleton_eq. apply english_set_literal.
  - rewrite lookup_total_singleton_ne by done. intros c Hc.
    by apply not_elem_of_empty in Hc.
Qed.

(** The generator of the examples: seeded from the one word [ba]. *)
Lemma example_seeded_ba : seeded (example_seeded true ["ba"]).
Proof.
  apply seeded_init; [done| |apply example_literal_sets].
  repeat constructor. by apply not_in_list_decide.
Qed.

Lemma generated_word_nonempty_without_marker_witness :
  (_generate_word 5 (example_seeded true ["ba"])).1 = Return (of_string "ba") ∧
  1 ≤ length (of_string "ba") ∧ marker ∉ of_string "ba".
Proof.
  split; [by vm_compute|].
  apply (generated_word_nonempty_without_marker
           (example_seeded true ["ba"]) 5 (of_string "ba")
           (_generate_word 5 (example_seeded true ["ba"])).2
           example_seeded_ba).
  by vm_compute.
Defined.

(** C9.  With the limit left at [None], [generate_word] never returns a
    word, and neither does the iterator of [generate(None)], whatever
    the generator holds: a candidate with characters makes the
    comparison with [None] raise [TypeError], and a candidate without
    any is passed over.  In a seeded generator every candidate has
    characters, so the first one generated raises. *)
Theorem generate_word_without_limit_never_returns
    (st : state) (tries fuel : nat) :
  (∀ word st', generate_word NoLimit tries fuel st ≠ (Return word, st')) ∧
  (∀ items n st', generate NoLimit (S n) tries fuel st ≠ (Return items, st')) ∧
  (seeded st →
   ∀ word st',
     _generate_word fuel st = (Return word, st') →
     generate_word NoLimit (S tries) fuel st = (Raise TypeError, st')).
Proof.
  split; [|split].
  - intros word st'.
    exact (next_item_no_maximum tries fuel 0 st word st').
  - intros items n st' E. unfold generate in E. simpl in E.
    apply bind_Return_inv in E as (item & st1 & E & _).
    by eapply next_item_no_maximum.
  - intros Hst word st' E.
    apply (next_item_first_nonempty _ _ _ word); [done|].
    apply seeded_chain_inv in Hst.
    by eapply generate_word_result in E as [Hw _].
Qed.

Lemma generate_word_without_limit_never_returns_witness :
  (generate_word NoLimit 1 5 (example_seeded true ["ba"])).1 = Raise TypeError.
Proof.
  pose proof (generate_word_without_limit_never_returns
                (example_seeded true ["ba"]) 0 5) as (_ & _ & H).
  refine (f_equal fst (H example_seeded_ba (of_string "ba") _ _)).
  by vm_compute.
Defined.

(** ** Loading *)

Lemma key_eqb_str k s : key_eqb k (KStr s) = true ↔ k = KStr s.
Proof.
  destruct k as [[| | |x]|ks]; simpl; try (split; done).
  rewrite bool_decide_eq_true. split; congruence.
Qed.

Lemma dict_lookup_store_str a b v entries :
  dict_lookup (KStr a) (dict_store (KStr b) v entries)
  = if decide (b = a) then Some v else dict_lookup (KStr a) entries.
Proof.
  induction entries as [|[k x] l IH]; simpl.
  - destruct (decide (b = a)) as [->|Hne].
    + by rewrite bool_decide_eq_true_2.
    + by rewrite bool_decide_eq_false_2.
  - destruct (key_eqb k (KStr b)) eqn:Eb.
    + apply key_eqb_str in Eb as ->. simpl.
      destruct (decide (b = a)) as [->|Hne].
      * by rewrite bool_decide_eq_true_2.
      * by rewrite bool_decide_eq_false_2.
    + simpl. destruct (key_eqb k (KStr a)) eqn:Ea.
      * apply key_eqb_str in Ea as ->.
        destruct (decide (b = a)) as [->|Hne]; [|done].
        simpl in Eb. by rewrite bool_decide_eq_true_2 in Eb.
      * exact IH.
Qed.

Lemma dict_lookup_members name (f : json → value) members :
  dict_lookup (KStr name)
    (dict_comprehension (map (λ m : str * json, (KStr m.1, f m.2)) members))
  = f <$> last_member name members.
Proof.
  unfold dict_comprehension, last_member.
  assert (G : ∀ acc found,
    dict_lookup (KStr name) acc = f <$> found →
    dict_lookup (KStr name)
      (fold_left (λ entries e, dict_store e.1 e.2 entries)
         (map (λ m : str * json, (KStr m.1, f m.2)) members) acc)
    = f <$> fold_left (λ found m, if decide (m.1 = name) then Some m.2 else found)
              members found).
  { induction members as [|[n j] l IH]; intros acc found Hacc; simpl; [done|].
    apply IH. rewrite dict_lookup_store_str.
    by destruct (decide (n = name)). }
  by apply G.
Qed.

(** Reading a field of the parsed document. *)
Lemma subscript_document (j : json) (name : string) :
  subscript (of_json j) (VStr (of_string name))
  = match j with
    | JObj _ =>
        match json_field name j with
        | Some x => Return (of_json x, of_json j)
        | None => Raise KeyError
        end
    | _ => Raise TypeError
    end.
Proof.
  destruct j as [[| | |s]|items|members]; try done.
  simpl. rewrite dict_lookup_members.
  by destruct (last_member (of_string name) members).
Qed.

Lemma load_run (j : json) (st : state) :
  load (Json j) st
  = match decode_components (of_json j) with
    | Return c =>
        let st1 := (set_components c st).2 in
        match subscript (of_json j) (VStr (of_string "starts")) with
        | Return (s, _) =>
            let st2 := (set_starts s st1).2 in
            match subscript (of_json j) (VStr (of_string "weighted")) with
            | Return (w, _) => (Return tt, (set_weighted w st2).2)
            | Raise e => (Raise e, st2)
            | OutOfFuel => (OutOfFuel, st2)
            end
        | Raise e => (Raise e, st1)
        | OutOfFuel => (OutOfFuel, st1)
        end
    | Raise e => (Raise e, st)
    | OutOfFuel => (OutOfFuel, st)
    end.
Proof.
  unfold load, mbind, M_bind, lift, json_load.
  destruct (decode_components (of_json j)) as [c|e|]; [|done|done].
  unfold set_components at 1. unfold update_self at 1. cbv beta iota.
  destruct (subscript (of_json j) (VStr (of_string "starts")))
    as [[s ?]|e|]; [|done|done].
  unfold set_starts at 1. unfold update_self at 1. cbv beta iota.
  by destruct (subscript (of_json j) (VStr (of_string "weighted")))
    as [[w ?]|e|].
Qed.

Lemma decode_components_object j c :
  decode_components (of_json j) = Return c → ∃ members, j = JObj members.
Proof.
  unfold decode_components. intros E.
  apply outcome_bind_Return_inv in E as ([x ?] & E & _).
  rewrite subscript_document in E.
  destruct j as [a|items|members]; try done. by exists members.
Qed.

(** C5, as amended.  [load] checks nothing beyond what decoding the
    components needs, and assigns the three attributes one after the
    other.  A file that is not JSON, or a document whose components do
    not decode (the field is missing, or has the wrong shape), makes it
    raise and leaves the generator as it was.  A document whose
    components decode but which has no [starts] makes it raise
    [KeyError] with the components already replaced; one without
    [weighted], with the components and the starts already replaced.  A
    document with the three fields whose components decode is loaded,
    whatever its flag says about the entries. *)
Theorem load_assigns_field_by_field (st : state) :
  load NotJson st = (Raise ValueError, st) ∧
  (∀ j e,
     decode_components (of_json j) = Raise e →
     load (Json j) st = (Raise e, st)) ∧
  (∀ j c,
     decode_components (of_json j) = Return c →
     let st1 := (set_components c st).2 in
     match json_field "starts" j with
     | None => load (Json j) st = (Raise KeyError, st1)
     | Some s =>
         let st2 := (set_starts (of_json s) st1).2 in
         match json_field "weighted" j with
         | None => load (Json j) st = (Raise KeyError, st2)
         | Some w =>
             load (Json j) st = (Return tt, (set_weighted (of_json w) st2).2)
         end
     end).
Proof.
  split; [done|]. split.
  - intros j e E. by rewrite load_run, E.
  - intros j c E st1. rewrite load_run, E.
    apply decode_components_object in E as [members ->].
    rewrite !subscript_document.
    destruct (json_field "starts" (JObj members)); [|done].
    by destruct (json_field "weighted" (JObj members)).
Qed.

Lemma load_assigns_field_by_field_witness :
  let st := example_state true 0 0 in
  load (Json document_without_starts) st
  = (Raise KeyError, (set_components (VDict PlainDict []) st).2).
Proof.
  intros st.
  apply (proj2 (proj2 (load_assigns_field_by_field st))
           document_without_starts (VDict PlainDict [])).
  reflexivity.
Defined.

(** C5, as stated, fails twice.  A document with [components] only makes
    [load] raise [KeyError], not a format error, after the components of
    the generator were replaced; and a document whose flag says
    unweighted while its entries carry counts is loaded without
    complaint. *)
Lemma load_is_not_atomic :
  let st := example_seeded true ["banana"] in
  (∃ st', load (Json document_without_starts) st = (Raise KeyError, st') ∧
          components (self st') = Some (VDict PlainDict []) ∧
          components (self st') ≠ components (self st) ∧
          starts (self st') = starts (self st)) ∧
  (load (Json document_with_counts_unweighted) st).1 = Return tt.
Proof.
  intros st. split.
  - eexists. split; [by rewrite load_run|]. by vm_compute.
  - by vm_compute.
Qed.

(** ** Saving a generator that is not weighted *)

(** C1: the code at the failing input.  Seeded without weights from the
    word [ba], the generator holds lists of pairs, and [save] asks each
    of them for its [items]: it raises [AttributeError] and writes
    nothing that could be loaded back. *)
Theorem save_unweighted_raises_attribute_error :
  components (self (example_seeded false ["ba"]))
  = Some (VDict PlainDict
            [ (KStr (of_string "~"),
               VList [ VTuple [ VStr (of_string "b"); VStr (of_string "a~") ] ]) ]) ∧
  starts (self (example_seeded false ["ba"])) = Some (VList [ VStr (of_string "~") ]) ∧
  save (example_seeded false ["ba"]) = (Raise AttributeError, example_seeded false ["ba"]).
Proof. by vm_compute. Qed.

(** As soon as the first key of the chain has a list for its successors,
    [save] raises. *)
Lemma save_list_raises st kind k vs rest :
  components (self st) = Some (VDict kind ((k, VList vs) :: rest)) →
  save st = (Raise AttributeError, st).
Proof.
  intros E. unfold save. unfold mbind at 1. unfold M_bind, attribute.
  rewrite E. done.
Qed.

(** ** Appending to a seeded generator *)

(** C7: the code at the failing inputs.  A weighted generator seeded from
    [ba] holds plain dictionaries.  Appending the word [bo] through
    [language] counts the start a second time and then looks the new
    pair up in a plain dictionary: [KeyError], and the pair is not
    added.  Appending the same word through [dictionary] goes through the
    nested call, which does not pass [append] on: the chain is replaced,
    and the pair seeded first is gone. *)
Theorem seed_append_fails_or_replaces :
  let st := example_seeded true ["ba"] in
  let pair_ba := KTuple [ KStr (of_string "b"); KStr (of_string "a~") ] in
  let pair_bo := KTuple [ KStr (of_string "b"); KStr (of_string "o~") ] in
  components (self st)
  = Some (VDict PlainDict
            [ (KStr (of_string "~"), VDict PlainDict [ (pair_ba, VInt 1) ]) ]) ∧
  (let r := seed None (Some (Words [ of_string "bo" ])) None true st in
   r.1 = Raise KeyError ∧
   components (self r.2) = components (self st) ∧
   starts (self r.2) = Some (VDict PlainDict [ (KStr (of_string "~"), VInt 2) ])) ∧
  (let r := seed (Some (File [ line "bo" ])) None None true st in
   r.1 = Return tt ∧
   components (self r.2)
   = Some (VDict PlainDict
             [ (KStr (of_string "~"), VDict PlainDict [ (pair_bo, VInt 1) ]) ])).
Proof. by vm_compute. Qed.

(** ** Seeding builds the model *)

Section Assoc.
Context {K V : Type} `{EqDecision K}.
Implicit Types (k : K) (v : V) (l : list (K * V)).

Lemma assoc_lookup_None k l : assoc_lookup k l = None ↔ k ∉ l.*1.
Proof.
  induction l as [|[k' v'] l IH]; simpl.
  - split; [intros _ H0; by apply elem_of_nil in H0|done].
  - rewrite not_elem_of_cons. destruct (decide (k' = k)) as [->|Hne].
    + split; [done|]. by intros [? _].
    + rewrite IH. split; [by split|by intros [_ ?]].
Qed.

Lemma assoc_store_fresh k v l :
  k ∉ l.*1 → assoc_store k v l = l ++ [(k, v)].
Proof.
  induction l as [|[k' v'] l IH]; simpl; [done|].
  rewrite not_elem_of_cons. intros [Hne Hl].
  destruct (decide (k' = k)); [congruence|]. by rewrite IH.
Qed.

Lemma assoc_store_same k v l :
  assoc_lookup k l = Some v → assoc_store k v l = l.
Proof.
  induction l as [|[k' v'] l IH]; simpl; [done|].
  destruct (decide (k' = k)); [by intros [= ->]|].
  intros E. by rewrite IH.
Qed.

Lemma assoc_store_store k v v' l :
  assoc_store k v (assoc_store k v' l) = assoc_store k v l.
Proof.
  induction l as [|[k' x] l IH]; simpl.
  - by destruct (decide (k = k)).
  - destruct (decide (k' = k)) as [E|E]; simpl;
      destruct (decide (k' = k)); try done. by rewrite IH.
Qed.

Lemma assoc_lookup_store k v l : assoc_lookup k (assoc_store k v l) = Some v.
Proof.
  induction l as [|[k' x] l IH]; simpl.
  - by destruct (decide (k = k)).
  - destruct (decide (k' = k)) as [E|E]; simpl;
      destruct (decide (k' = k)); done.
Qed.

Lemma assoc_store_in_keys k v l x :
  x ∈ (assoc_store k v l).*1 → x = k ∨ x ∈ l.*1.
Proof.
  induction l as [|[k' y] l IH]; simpl.
  - intros Hx%list_elem_of_singleton. by left.
  - destruct (decide (k' = k)); simpl; [by right|].
    rewrite !elem_of_cons. intros [->|Hx]; [by right; left|].
    destruct (IH Hx); [by left|by right; right].
Qed.

Lemma assoc_store_NoDup k v l : NoDup l.*1 → NoDup (assoc_store k v l).*1.
Proof.
  induction l as [|[k' y] l IH]; simpl.
  - intros _. apply NoDup_singleton.
  - rewrite NoDup_cons. intros [Hk' Hl].
    destruct (decide (k' = k)); simpl; apply NoDup_cons.
    + done.
    + split; [|by apply IH]. intros Hin.
      apply assoc_store_in_keys in Hin as [?|?]; done.
Qed.

Lemma assoc_lookup_elem k v l : assoc_lookup k l = Some v → (k, v) ∈ l.
Proof.
  induction l as [|[k' x] l IH]; simpl; [done|].
  destruct (decide (k' = k)) as [->|].
  - intros [= ->]. by left.
  - intros E. right. by apply IH.
Qed.

Lemma assoc_store_Forall (P : K * V → Prop) k v l :
  Forall P l → (∀ k', P (k', v)) → Forall P (assoc_store k v l).
Proof.
  intros Hl Hv. induction Hl as [|[k' x] l Hx Hl IH]; simpl.
  - by repeat constructor.
  - destruct (decide (k' = k)); constructor; auto.
Qed.

Variable ek : K → key.
Variable ev : V → value.
Hypothesis ek_eqb : ∀ a b, key_eqb (ek a) (ek b) = bool_decide (a = b).

Lemma dict_lookup_entries k l :
  dict_lookup (ek k) (entries_of ek ev l) = ev <$> assoc_lookup k l.
Proof using ek_eqb.
  induction l as [|[k' x] l IH]; simpl; [done|].
  rewrite ek_eqb. destruct (decide (k' = k)).
  - by rewrite bool_decide_eq_true_2.
  - by rewrite bool_decide_eq_false_2.
Qed.

Lemma dict_store_entries k v l :
  dict_store (ek k) (ev v) (entries_of ek ev l)
  = entries_of ek ev (assoc_store k v l).
Proof using ek_eqb.
  induction l as [|[k' x] l IH]; simpl; [done|].
  rewrite ek_eqb. destruct (decide (k' = k)).
  - by rewrite bool_decide_eq_true_2.
  - rewrite bool_decide_eq_false_2 by done. simpl. by rewrite IH.
Qed.

Lemma dict_comprehension_entries l :
  NoDup l.*1 → dict_comprehension (entries_of ek ev l) = entries_of ek ev l.
Proof using ek_eqb.
  unfold dict_comprehension.
  assert (G : ∀ acc, NoDup (acc ++ l).*1 →
            fold_left (λ entries e, dict_store e.1 e.2 entries)
              (entries_of ek ev l) (entries_of ek ev acc)
            = entries_of ek ev (acc ++ l)).
  { induction l as [|[k x] l IH]; intros acc Hnd; simpl.
    - by rewrite app_nil_r.
    - rewrite dict_store_entries, assoc_store_fresh.
      + rewrite IH; rewrite <- app_assoc; done.
      + rewrite fmap_app in Hnd. apply NoDup_app in Hnd as (_ & Hnd & _).
        intros Hin. apply (Hnd k Hin). by left. }
  intros Hnd. by apply (G []).
Qed.
End Assoc.

Lemma key_eqb_KStr a b : key_eqb (KStr a) (KStr b) = bool_decide (a = b).
Proof. done. Qed.

Lemma key_eqb_pair a b :
  key_eqb (pair_key_of a) (pair_key_of b) = bool_decide (a = b).
Proof.
  destruct a as [m n], b as [m' n']. simpl.
  destruct (decide (m = m')) as [->|Hm], (decide (n = n')) as [->|Hn].
  - by rewrite !bool_decide_eq_true_2.
  - rewrite bool_decide_eq_true_2 by done.
    rewrite !bool_decide_eq_false_2; [done|congruence|done].
  - rewrite bool_decide_eq_false_2 by done. simpl.
    rewrite bool_decide_eq_false_2; [done|congruence].
  - rewrite bool_decide_eq_false_2 by done. simpl.
    rewrite bool_decide_eq_false_2; [done|congruence].
Qed.

Lemma lift_bind {A B} (o : outcome A) (k : A → M B) st a :
  o = Return a → (lift o ≫= k) st = k a st.
Proof. by intros ->. Qed.

Lemma subscript_starts_value kind s key :
  kind ≠ PlainDict ∨ is_Some (assoc_lookup key s) →
  kind ≠ DefaultDict →
  subscript (starts_value kind s) (VStr key)
  = Return (VInt (default 0%Z (assoc_lookup key s)), starts_value kind s).
Proof.
  intros Hk Hd. unfold subscript, starts_value. simpl hash_key.
  unfold mbind, outcome_bind.
  rewrite (dict_lookup_entries _ _ key_eqb_KStr).
  destruct (assoc_lookup key s) as [c|]; [done|]. simpl.
  destruct kind; try done. by destruct Hk as [?|[? ?]].
Qed.

Lemma store_starts_value kind s key (c : Z) :
  store_item (starts_value kind s) (VStr key) (VInt c)
  = Return (starts_value kind (assoc_store key c s)).
Proof.
  unfold store_item, starts_value. simpl hash_key.
  unfold mbind, outcome_bind.
  by rewrite (dict_store_entries (λ k : str, KStr k) (λ c : Z, VInt c)
                key_eqb_KStr).
Qed.

Lemma count_start_counting key m st :
  count_start key (counting m st)
  = (Return (),
     counting (Model (transitions m) (bump key (start_counts m))) st).
Proof.
  unfold count_start.
  erewrite bind_Return by reflexivity.
  erewrite lift_bind by (by apply subscript_starts_value; [left|]).
  lazy beta iota.
  erewrite bind_Return by reflexivity.
  erewrite lift_bind by reflexivity.
  erewrite lift_bind by apply store_starts_value.
  reflexivity.
Qed.

Lemma subscript_successors_value succ pair :
  subscript (successors_value CounterDict succ) (pair_value pair)
  = Return (VInt (default 0%Z (assoc_lookup pair succ)),
            successors_value CounterDict succ).
Proof.
  unfold subscript, successors_value. rewrite hash_pair_value.
  unfold mbind, outcome_bind.
  change (KTuple [KStr pair.1; KStr pair.2]) with (pair_key_of pair).
  rewrite (dict_lookup_entries _ _ key_eqb_pair).
  by destruct (assoc_lookup pair succ).
Qed.

Lemma store_successors_value kind succ pair (c : Z) :
  store_item (successors_value kind succ) (pair_value pair) (VInt c)
  = Return (successors_value kind (assoc_store pair c succ)).
Proof.
  unfold store_item, successors_value. rewrite hash_pair_value.
  unfold mbind, outcome_bind.
  change (KTuple [KStr pair.1; KStr pair.2]) with (pair_key_of pair).
  by rewrite (dict_store_entries pair_key_of (λ c : Z, VInt c) key_eqb_pair).
Qed.

(** Reading a key of the [defaultdict]: a missing key is added with an
    empty counter. *)
Lemma subscript_transitions_value t key :
  subscript (transitions_value DefaultDict CounterDict t) (VStr key)
  = Return (successors_value CounterDict (default [] (assoc_lookup key t)),
            transitions_value DefaultDict CounterDict
              (assoc_store key (default [] (assoc_lookup key t)) t)).
Proof.
  unfold subscript, transitions_value. simpl hash_key.
  unfold mbind, outcome_bind.
  rewrite (dict_lookup_entries _ _ key_eqb_KStr).
  destruct (assoc_lookup key t) as [found|] eqn:E; simpl.
  - by rewrite assoc_store_same.
  - apply assoc_lookup_None in E. rewrite assoc_store_fresh by done.
    unfold entries_of. by rewrite map_app.
Qed.

Lemma store_transitions_value outer inner t key succ :
  store_item (transitions_value outer inner t) (VStr key)
    (successors_value inner succ)
  = Return (transitions_value outer inner (assoc_store key succ t)).
Proof.
  unfold store_item, transitions_value. simpl hash_key.
  unfold mbind, outcome_bind.
  by rewrite (dict_store_entries (λ k : str, KStr k) (successors_value inner)
                key_eqb_KStr).
Qed.

Lemma count_component_counting key pair m st :
  count_component key pair (counting m st)
  = (Return (),
     counting
       (Model
          (assoc_store key
             (bump pair (default [] (assoc_lookup key (transitions m))))
             (transitions m))
          (start_counts m)) st).
Proof.
  unfold count_component.
  erewrite bind_Return by reflexivity.
  erewrite lift_bind by apply subscript_transitions_value.
  lazy beta iota.
  erewrite bind_Return by reflexivity.
  erewrite lift_bind by apply subscript_successors_value.
  lazy beta iota.
  erewrite lift_bind by apply store_transitions_value.
  erewrite bind_Return by reflexivity.
  erewrite lift_bind by reflexivity.
  erewrite lift_bind by apply store_successors_value.
  erewrite lift_bind by apply store_transitions_value.
  unfold set_components, update_self, counting, with_tables. simpl.
  by rewrite !assoc_store_store.
Qed.

(** The body of the loop counts one segment. *)
Lemma count_segment_counting s m st :
  count_segment s (counting m st) = (Return (), counting (count m s) st).
Proof.
  destruct s as [key pair]. unfold count_segment, count.
  change (key, pair).1 with key. change (key, pair).2 with pair.
  destruct (startswith key MARKER).
  - erewrite bind_Return by apply count_start_counting.
    by rewrite count_component_counting.
  - erewrite bind_Return by reflexivity.
    rewrite count_component_counting. by destruct m.
Qed.

(** The loop counts them all. *)
Lemma for_each_counting segments m st :
  for_each count_segment segments (counting m st)
  = (Return (), counting (fold_left count segments m) st).
Proof.
  revert m. induction segments as [|s l IH]; intros m; simpl; [done|].
  erewrite bind_Return by apply count_segment_counting. apply IH.
Qed.

Lemma bump_NoDup {K} `{EqDecision K} (k : K) l :
  NoDup l.*1 → NoDup (bump k l).*1.
Proof. apply assoc_store_NoDup. Qed.

Lemma count_wf m s : wf_model m → wf_model (count m s).
Proof.
  intros (Ht & Hs & Hc). destruct s as [key pair]. unfold count. simpl.
  split; [by apply assoc_store_NoDup|]. split.
  - apply assoc_store_Forall; [done|]. intros ?. simpl.
    apply bump_NoDup.
    destruct (assoc_lookup key (transitions m)) as [succ|] eqn:E;
      [|apply NoDup_nil_2].
    apply assoc_lookup_elem in E. rewrite Forall_forall in Hs.
    by apply Hs in E.
  - destruct (match key with [] => false | _ => _ end); [|done].
    by apply bump_NoDup.
Qed.

Lemma build_wf segments : wf_model (build segments).
Proof.
  unfold build.
  assert (G : ∀ m, wf_model m → wf_model (fold_left count segments m)).
  { induction segments as [|s l IH]; intros m Hm; simpl; [done|].
    by apply IH, count_wf. }
  apply G. repeat split; try apply NoDup_nil_2. constructor.
Qed.

Lemma mapM_Return_map {A B} (f : A → outcome B) (g : A → B) l :
  (∀ a, a ∈ l → f a = Return (g a)) → mapM f l = Return (map g l).
Proof.
  induction l as [|a l IH]; intros Hf; simpl; [done|].
  rewrite Hf by (by left). simpl. rewrite IH; [done|].
  intros b Hb. apply Hf. by right.
Qed.

Lemma map_entries_of {K V} (ek : K → key) (ev ev' : V → value)
    (f : key * value → key * value) (l : list (K * V)) :
  (∀ e, f (ek e.1, ev e.2) = (ek e.1, ev' e.2)) →
  map f (entries_of ek ev l) = entries_of ek ev' l.
Proof.
  intros Hf. unfold entries_of. rewrite map_map. apply map_ext. intros e.
  apply Hf.
Qed.

(** Applying a conversion to every value of a dictionary. *)
Lemma mapM_entries {K V} (ek : K → key) (ev ev' : V → value)
    (f : key * value → outcome (key * value)) (l : list (K * V)) :
  (∀ e, f (ek e.1, ev e.2) = Return (ek e.1, ev' e.2)) →
  mapM f (entries_of ek ev l) = Return (entries_of ek ev' l).
Proof.
  intros Hf. induction l as [|e l IH]; simpl; [done|].
  rewrite Hf. simpl. by rewrite IH.
Qed.

Lemma list_of_keys_successors kind succ :
  list_of_keys (successors_value kind succ) = Return (successors_list succ).
Proof.
  unfold list_of_keys, keys, successors_value, successors_list. simpl.
  f_equal. f_equal. unfold entries_of. rewrite map_map. done.
Qed.

Lemma list_of_keys_starts kind s :
  list_of_keys (starts_value kind s) = Return (starts_list s).
Proof.
  unfold list_of_keys, keys, starts_value, starts_list. simpl.
  f_equal. f_equal. unfold entries_of. rewrite map_map. done.
Qed.

(** The end of a seeding, on the counters of a model. *)
Lemma freeze_counting m st :
  wf_model m →
  freeze (counting m st)
  = (Return (),
     if truthy (weighted (self st)) then holding m st else listing m st).
Proof.
  intros (Ht & _ & _). unfold freeze.
  erewrite bind_Return by reflexivity.
  change (weighted (self (counting m st))) with (weighted (self st)).
  destruct (truthy (weighted (self st))).
  - erewrite bind_Return by reflexivity.
    erewrite lift_bind by reflexivity.
    erewrite lift_bind.
    2:{ apply (mapM_entries (λ k : str, KStr k)
                 (successors_value CounterDict) (successors_value PlainDict)).
        done. }
    rewrite (dict_comprehension_entries _ _ key_eqb_KStr) by done.
    erewrite bind_Return by reflexivity.
    erewrite bind_Return by reflexivity.
    erewrite lift_bind by reflexivity.
    reflexivity.
  - erewrite bind_Return by reflexivity.
    erewrite lift_bind by reflexivity.
    erewrite lift_bind.
    2:{ apply (mapM_entries (λ k : str, KStr k)
                 (successors_value CounterDict) successors_list).
        intros e. cbn [fst snd]. by rewrite list_of_keys_successors. }
    rewrite (dict_comprehension_entries _ _ key_eqb_KStr) by done.
    erewrite bind_Return by reflexivity.
    erewrite bind_Return by reflexivity.
    erewrite lift_bind by apply list_of_keys_starts.
    reflexivity.
Qed.

(** Seeding from a language, without appending, builds the model of its
    segments: dictionaries of counts in a weighted generator, lists in
    an unweighted one. *)
Lemma seed_language_builds st language vowels items :
  source_items language = Return items →
  source_truthy language = true →
  let prepared := seed_prepared vowels false st in
  let p := re_compile (sets prepared !!! default ENGLISH_VOWELS vowels) in
  let m := build (corpus_segments p items) in
  seed None language vowels false st
  = (Return (),
     if truthy (weighted (self st)) then holding m prepared
     else listing m prepared).
Proof.
  intros Hitems Htruthy prepared p m.
  unfold seed. rewrite seed_with_prepared. fold prepared.
  unfold seed_branches. rewrite source_truthy_None, Htruthy.
  change (false && negb true) with false. change (true && negb false) with true.
  lazy beta iota.
  erewrite lift_bind by exact Hitems.
  erewrite bind_Return by reflexivity.
  change prepared with (counting (Model [] []) prepared) at 1.
  erewrite bind_Return by apply for_each_counting.
  rewrite freeze_counting by apply build_wf. done.
Qed.

(** ** Saving and loading a weighted model *)

Lemma to_json_dict kind entries :
  to_json (VDict kind entries)
  = (ms ← mapM (λ e : key * value,
                  k ← json_key e.1; j ← to_json e.2; Return (k, j)) entries;
     Return (JObj ms)).
Proof. done. Qed.

Lemma to_json_list vs :
  to_json (VList vs) = (js ← mapM to_json vs; Return (JArr js)).
Proof. done. Qed.

Lemma to_json_starts kind s :
  to_json (starts_value kind s)
  = Return (JObj (map (λ e : str * Z, (e.1, JAtom (AInt e.2))) s)).
Proof.
  unfold starts_value. rewrite to_json_dict.
  erewrite mapM_Return_map with
    (g := λ e : key * value,
            (match e.1 with KAtom (AStr k) => k | _ => [] end,
             match e.2 with VAtom a => JAtom a | _ => JAtom ANone end)).
  - simpl. f_equal. f_equal. unfold entries_of. by rewrite map_map.
  - intros e He. apply list_elem_of_fmap in He as ([k c] & -> & _). done.
Qed.

Lemma to_json_listed succ :
  to_json (listed_successors succ) = Return (encoded_successors succ).
Proof.
  unfold listed_successors, encoded_successors. rewrite to_json_list.
  erewrite mapM_Return_map with
    (g := λ v : value,
            match v with
            | VTuple [VTuple [VAtom m; VAtom n]; VAtom c] =>
                JArr [JArr [JAtom m; JAtom n]; JAtom c]
            | _ => JAtom ANone
            end).
  - simpl. f_equal. f_equal. by rewrite map_map.
  - intros v Hv. apply list_elem_of_fmap in Hv as ([[m n] c] & -> & _). done.
Qed.

Lemma mapM_cons_Return {A B} (f : A → outcome B) x l y k :
  f x = Return y → mapM f l = Return k → mapM f (x :: l) = Return (y :: k).
Proof. intros Hx Hl. simpl. by rewrite Hx, Hl. Qed.

Lemma mapM_entries_map {K V B} (ek : K → key) (ev : V → value)
    (f : key * value → outcome B) (g : K * V → B) (l : list (K * V)) :
  (∀ e, f (ek e.1, ev e.2) = Return (g e)) →
  mapM f (entries_of ek ev l) = Return (map g l).
Proof.
  intros Hf. induction l as [|e l IH]; simpl; [done|].
  rewrite Hf. simpl. by rewrite IH.
Qed.

Lemma to_json_listed_transitions t :
  to_json (VDict PlainDict (entries_of (λ k : str, KStr k) listed_successors t))
  = Return (JObj (map (λ e : str * successors,
                         (e.1, encoded_successors e.2)) t)).
Proof.
  rewrite to_json_dict.
  erewrite (mapM_entries_map (λ k : str, KStr k) listed_successors); [done|].
  intros e. cbn [fst snd json_key]. unfold mbind, outcome_bind.
  by rewrite to_json_listed.
Qed.

Lemma items_successors_value kind succ :
  items (successors_value kind succ)
  = Return (entries_of pair_key_of (λ c : Z, VInt c) succ).
Proof. done. Qed.

(** [save] writes the encoding of the model a weighted generator
    holds. *)
Lemma save_holding m st a :
  wf_model m → weighted (self st) = VAtom a →
  save (holding m st) = (Return (encode a m), holding m st).
Proof.
  intros (Ht & _ & _) Hw. unfold save.
  erewrite bind_Return by reflexivity.
  erewrite lift_bind by reflexivity.
  erewrite lift_bind.
  2:{ apply (mapM_entries (λ k : str, KStr k)
               (successors_value PlainDict) listed_successors).
      intros e. cbn [fst snd]. rewrite items_successors_value. simpl.
      unfold listed_successors, entries_of. by rewrite map_map. }
  rewrite (dict_comprehension_entries _ _ key_eqb_KStr) by done.
  erewrite bind_Return by reflexivity.
  erewrite bind_Return by reflexivity.
  change (weighted (self (holding m st))) with (weighted (self st)).
  rewrite Hw. unfold lift. f_equal.
  rewrite to_json_dict.
  erewrite mapM_cons_Return; [reflexivity|reflexivity|].
  erewrite mapM_cons_Return;
    [reflexivity|cbn [fst snd json_key]; by rewrite to_json_starts|].
  erewrite mapM_cons_Return;
    [reflexivity
    |cbn [fst snd json_key]; by rewrite to_json_listed_transitions
    |reflexivity].
Qed.

Lemma of_json_object members :
  of_json (JObj members)
  = VDict PlainDict
      (dict_comprehension
         (map (λ m : str * json, (KStr m.1, of_json m.2)) members)).
Proof. done. Qed.

Lemma of_json_starts s :
  NoDup s.*1 →
  of_json (JObj (map (λ e : str * Z, (e.1, JAtom (AInt e.2))) s))
  = starts_value PlainDict s.
Proof.
  intros Hs. rewrite of_json_object, map_map. unfold starts_value. f_equal.
  by apply (dict_comprehension_entries (λ k : str, KStr k) (λ c : Z, VInt c)
              key_eqb_KStr).
Qed.

Lemma of_json_encoded_successors succ :
  of_json (encoded_successors succ) = loaded_successors succ.
Proof.
  unfold encoded_successors, loaded_successors. simpl. f_equal.
  by rewrite map_map.
Qed.

Lemma of_json_transitions t :
  NoDup t.*1 →
  of_json (JObj (map (λ e : str * successors,
                        (e.1, encoded_successors e.2)) t))
  = VDict PlainDict (entries_of (λ k : str, KStr k) loaded_successors t).
Proof.
  intros Ht. rewrite of_json_object, map_map. f_equal.
  rewrite <- (dict_comprehension_entries (λ k : str, KStr k)
                loaded_successors key_eqb_KStr) by done.
  f_equal. unfold entries_of. apply map_ext. intros e. simpl.
  by rewrite <- of_json_encoded_successors.
Qed.

(** The comprehension of [load] rebuilds the counts of a key. *)
Lemma decode_values_successors succ acc :
  NoDup (acc ++ succ).*1 →
  decode_values
    (map (λ i : (str * str) * Z,
            VList [ VList [ VStr i.1.1; VStr i.1.2 ]; VInt i.2 ]) succ)
    (entries_of pair_key_of (λ c : Z, VInt c) acc)
  = Return (entries_of pair_key_of (λ c : Z, VInt c) (acc ++ succ)).
Proof.
  revert acc. induction succ as [|[[m n] c] succ IH]; intros acc Hnd.
  - by rewrite app_nil_r.
  - simpl.
    change (KTuple [KStr m; KStr n]) with (pair_key_of (m, n)).
    rewrite (dict_store_entries pair_key_of (λ c : Z, VInt c) key_eqb_pair).
    rewrite assoc_store_fresh.
    + rewrite IH; rewrite <- app_assoc; done.
    + rewrite fmap_app in Hnd. apply NoDup_app in Hnd as (_ & Hnd & _).
      intros Hin. apply (Hnd (m, n) Hin). by left.
Qed.

Lemma decode_loaded_successors succ :
  NoDup succ.*1 →
  (elements ← iterate (loaded_successors succ);
   inner ← decode_values elements [];
   Return (VDict PlainDict inner))
  = Return (successors_value PlainDict succ).
Proof.
  intros Hs. unfold loaded_successors. cbn [iterate].
  unfold mbind at 1. unfold outcome_bind.
  pose proof (decode_values_successors succ [] Hs) as E.
  change (entries_of pair_key_of (λ c : Z, VInt c) []) with (@nil (key * value))
    in E.
  by rewrite E.
Qed.

Lemma mapM_entries_in {K V} (ek : K → key) (ev ev' : V → value)
    (f : key * value → outcome (key * value)) (l : list (K * V)) :
  (∀ e, e ∈ l → f (ek e.1, ev e.2) = Return (ek e.1, ev' e.2)) →
  mapM f (entries_of ek ev l) = Return (entries_of ek ev' l).
Proof.
  induction l as [|e l IH]; intros Hf; simpl; [done|].
  rewrite Hf by (by left). simpl. rewrite IH; [done|].
  intros e' He'. apply Hf. by right.
Qed.

Lemma encode_fields a m :
  json_field "components" (encode a m)
  = Some (JObj (map (λ e : str * successors,
                       (e.1, encoded_successors e.2)) (transitions m))) ∧
  json_field "starts" (encode a m)
  = Some (JObj (map (λ e : str * Z, (e.1, JAtom (AInt e.2)))
                    (start_counts m))) ∧
  json_field "weighted" (encode a m) = Some (JAtom a).
Proof. done. Qed.

Lemma decode_components_encode a m :
  wf_model m →
  decode_components (of_json (encode a m))
  = Return (transitions_value PlainDict PlainDict (transitions m)).
Proof.
  intros (Ht & Hs & _). unfold decode_components.
  rewrite subscript_document.
  destruct (encode_fields a m) as (-> & _ & _).
  change (encode a m) with (JObj
    [ (of_string "weighted", JAtom a);
      (of_string "starts",
       JObj (map (λ e : str * Z, (e.1, JAtom (AInt e.2))) (start_counts m)));
      (of_string "components",
       JObj (map (λ e : str * successors, (e.1, encoded_successors e.2))
                 (transitions m))) ]).
  lazy beta iota. rewrite of_json_transitions by done.
  unfold mbind at 1. unfold outcome_bind. lazy beta iota.
  unfold items. unfold mbind at 1. unfold outcome_bind.
  erewrite (mapM_entries_in (λ k : str, KStr k) loaded_successors
              (successors_value PlainDict)).
  - unfold mbind, outcome_bind. unfold transitions_value. f_equal. f_equal.
    by apply (dict_comprehension_entries (λ k : str, KStr k)
                (successors_value PlainDict) key_eqb_KStr).
  - intros e He. cbn [fst snd].
    rewrite Forall_forall in Hs. apply Hs in He.
    pose proof (decode_loaded_successors e.2 He) as E.
    apply outcome_bind_Return_inv in E as (elements & -> & E).
    apply outcome_bind_Return_inv in E as (inner & E & [= ->]).
    unfold mbind, outcome_bind. by rewrite E.
Qed.

(** [load] of the encoding of a model puts the model back. *)
Lemma load_encode a m st :
  wf_model m →
  load (Json (encode a m)) st = (Return (), loaded a m st).
Proof.
  intros Hm. rewrite load_run, decode_components_encode by done.
  rewrite !subscript_document.
  destruct (encode_fields a m) as (_ & Hs & Hw).
  change (encode a m) with (JObj
    [ (of_string "weighted", JAtom a);
      (of_string "starts",
       JObj (map (λ e : str * Z, (e.1, JAtom (AInt e.2))) (start_counts m)));
      (of_string "components",
       JObj (map (λ e : str * successors, (e.1, encoded_successors e.2))
                 (transitions m))) ]) in *.
  rewrite Hs, Hw. lazy beta iota zeta.
  rewrite of_json_starts by apply Hm. done.
Qed.

(** In weighted mode the round trip holds: a generator seeded from a
    language holds a model with each key once; [save] writes its
    encoding, and [load] of that document, into any generator, puts back
    the same transition table, the same start table, with the same
    counts, and the same flag. *)
Theorem weighted_save_load_roundtrip
    (st st2 : state) (language : option source) (vowels : option loc)
    (items : list str) (a : atom) :
  weighted (self st) = VAtom a → truthy (VAtom a) = true →
  source_items language = Return items →
  source_truthy language = true →
  ∃ m st1,
    wf_model m ∧
    seed None language vowels false st = (Return (), st1) ∧
    save st1 = (Return (encode a m), st1) ∧
    load (Json (encode a m)) st2 = (Return (), loaded a m st2) ∧
    components (self (loaded a m st2)) = components (self st1) ∧
    starts (self (loaded a m st2)) = starts (self st1) ∧
    weighted (self (loaded a m st2)) = weighted (self st1).
Proof.
  intros Hw Ht Hitems Hlang.
  pose proof (seed_language_builds st language vowels items Hitems Hlang) as E.
  cbv zeta in E. rewrite Hw, Ht in E.
  eexists _, _. split; [apply build_wf|]. split; [exact E|].
  split; [by apply save_holding; [apply build_wf|]|].
  split; [apply load_encode, build_wf|].
  split; [done|]. split; [done|]. symmetry. exact Hw.
Qed.

Lemma weighted_save_load_roundtrip_witness :
  ∃ m st1,
    wf_model m ∧
    seed None (Some (Words [of_string "banana"])) None false
      (example_state true 0 0) = (Return (), st1) ∧
    save st1 = (Return (encode (ABool true) m), st1) ∧
    load (Json (encode (ABool true) m)) (example_state false 0 0)
    = (Return (), loaded (ABool true) m (example_state false 0 0)) ∧
    components (self (loaded (ABool true) m (example_state false 0 0)))
    = components (self st1) ∧
    starts (self (loaded (ABool true) m (example_state false 0 0)))
    = starts (self st1) ∧
    weighted (self (loaded (ABool true) m (example_state false 0 0)))
    = weighted (self st1).
Proof.
  apply (weighted_save_load_roundtrip (example_state true 0 0)
           (example_state false 0 0) (Some (Words [of_string "banana"]))
           None [of_string "banana"] (ABool true));
    reflexivity.
Defined.

(** In unweighted mode [save] fails as soon as the chain has a key. *)
Lemma save_listing_raises m st :
  transitions m ≠ [] →
  save (listing m st) = (Raise AttributeError, listing m st).
Proof.
  intros Hne. destruct m as [[|[k succ] t] s]; [done|].
  by eapply save_list_raises.
Qed.

Lemma unweighted_seed_save_raises
    (st : state) (language : option source) (vowels : option loc)
    (items : list str) :
  truthy (weighted (self st)) = false →
  source_items language = Return items →
  source_truthy language = true →
  ∃ m st1,
    seed None language vowels false st = (Return (), st1) ∧
    st1 = listing m (seed_prepared vowels false st) ∧
    (transitions m ≠ [] → save st1 = (Raise AttributeError, st1)).
Proof.
  intros Hw Hitems Hlang.
  pose proof (seed_language_builds st language vowels items Hitems Hlang) as E.
  cbv zeta in E. rewrite Hw in E.
  eexists _, _. split; [exact E|]. split; [done|].
  apply save_listing_raises.
Qed.
